(** * A dependency-graph task scheduler (main.go): model and properties

    The Go program keeps one [Dag] object: a table of vertices, the parent
    and child adjacency tables, a run status and a start flag.  Vertices are
    heap objects that the table points to; a registered vertex is reached
    through its key in [Vertices], so the table itself is the store of
    vertex objects and a pointer to a registered vertex is its key.  The
    back-reference [Vertex.Dag] always designates the one graph the vertex
    was added to and is left implicit.  The mutex [mu] serialises [SetPass]
    and [SetFail]; each of their bodies is one atomic state transformer. *)

From Stdlib Require Import ZArith Lia.
From stdpp Require Import base option list relations gmap strings.

(** ** Data model *)

(** [Status] is a string type in the program; the three constants below are
    the only values the program ever stores in it. *)

Inductive Status : Type :=
| Pending
| Passed
| Failed.

#[global] Instance Status_eq_dec : EqDecision Status.
Proof. solve_decision. Defined.

(** [Loop] is a Go [int]; the program only compares it and passes it to the
    wait group. *)

Record Vertex : Type := mkVertex {
  ID : string;
  Vertex_Status : Status;
  Loop : Z;
  CanFail : bool
}.

Record Dag : Type := mkDag {
  Vertices : gmap string Vertex;
  ConnectionsParents : gmap string (list string);
  ConnectionsChildren : gmap string (list string);
  Dag_Status : Status;
  IsStarted : bool
}.

(** Field assignments. *)

Definition with_Vertex_Status (s : Status) (v : Vertex) : Vertex :=
  mkVertex (ID v) s (Loop v) (CanFail v).

Definition with_Vertices (vs : gmap string Vertex) (d : Dag) : Dag :=
  mkDag vs (ConnectionsParents d) (ConnectionsChildren d) (Dag_Status d) (IsStarted d).

Definition with_ConnectionsParents (ps : gmap string (list string)) (d : Dag) : Dag :=
  mkDag (Vertices d) ps (ConnectionsChildren d) (Dag_Status d) (IsStarted d).

Definition with_ConnectionsChildren (cs : gmap string (list string)) (d : Dag) : Dag :=
  mkDag (Vertices d) (ConnectionsParents d) cs (Dag_Status d) (IsStarted d).

Definition with_Dag_Status (s : Status) (d : Dag) : Dag :=
  mkDag (Vertices d) (ConnectionsParents d) (ConnectionsChildren d) s (IsStarted d).

Definition with_IsStarted (b : bool) (d : Dag) : Dag :=
  mkDag (Vertices d) (ConnectionsParents d) (ConnectionsChildren d) (Dag_Status d) b.

(** Reading a Go map of slices at a missing key yields the nil slice. *)

Definition parents (d : Dag) (id : string) : list string :=
  default [] (ConnectionsParents d !! id).

Definition children (d : Dag) (id : string) : list string :=
  default [] (ConnectionsChildren d !! id).

(** ** Methods as state transformers

    A method call takes the graph and gives back the graph together with its
    outcome.  A panic stops the method where it is raised, so the graph it
    leaves is the one reached just before.  [OutOfFuel] is the outcome of a
    bounded evaluation of the unbounded recursion of [IsCyclic] whose bound
    was too small; it is never the outcome of a Go call. *)

Inductive Result (A : Type) : Type :=
| Ok (a : A)
| Panic (msg : string)
| OutOfFuel.

Arguments Ok {A} a.
Arguments Panic {A} msg.
Arguments OutOfFuel {A}.

Definition M (A : Type) : Type := Dag → Result A * Dag.

#[global] Instance M_ret : MRet M := λ A a d, (Ok a, d).

#[global] Instance M_bind : MBind M := λ A B k m d,
  match m d with
  | (Ok a, d') => k a d'
  | (Panic msg, d') => (Panic msg, d')
  | (OutOfFuel, d') => (OutOfFuel, d')
  end.

Definition panic {A : Type} (msg : string) : M A := λ d, (Panic msg, d).

Definition get : M Dag := λ d, (Ok d, d).

Definition modify (f : Dag → Dag) : M unit := λ d, (Ok tt, f d).

Definition bounded {A : Type} (r : option A) : M A := λ d,
  match r with
  | Some a => (Ok a, d)
  | None => (OutOfFuel, d)
  end.

Definition nil_dereference : string :=
  "runtime error: invalid memory address or nil pointer dereference".

(** [d.Vertices[k]] followed by a method call on the result. *)

Definition deref (k : string) : M Vertex := λ d,
  match Vertices d !! k with
  | Some v => (Ok v, d)
  | None => (Panic nil_dereference, d)
  end.

Definition store (k : string) (v : Vertex) (d : Dag) : Dag :=
  with_Vertices (<[k := v]> (Vertices d)) d.

(** *** Status queries *)

Definition HasFailed (d : Dag) : bool := bool_decide (Dag_Status d = Failed).

Definition HasSucceeded (d : Dag) : bool := bool_decide (Dag_Status d = Passed).

Definition HasFinished (d : Dag) : bool := HasFailed d || HasSucceeded d.

(** *** Vertex methods; the receiver is the registered vertex at key [k] *)

Definition SetPass (k : string) : M unit :=
  v ← deref k;
  d ← get;
  if negb (HasFailed d) then modify (store k (with_Vertex_Status Passed v))
  else mret tt.

Definition SetFail (k : string) : M unit :=
  v ← deref k;
  d ← get;
  if negb (HasFailed d) then
    modify (store k (with_Vertex_Status Failed v));;
    if negb (CanFail v) then modify (with_Dag_Status Failed) else mret tt
  else mret tt.

(** *** Readiness *)

(** The loop of [CanExecute] over the parent ids: [false] is the early
    [return false], [true] means the loop ran to its end. *)

Fixpoint parents_resolved (d : Dag) (ps : list string) : bool :=
  match ps with
  | [] => true
  | parentID :: rest =>
      match Vertices d !! parentID with
      | None => false
      | Some parent =>
          if decide (Vertex_Status parent = Pending) then false
          else parents_resolved d rest
      end
  end.

Definition CanExecute (d : Dag) (v : Vertex) : bool :=
  if parents_resolved d (parents d (ID v)) then
    if decide (Vertex_Status v = Pending) then true else false
  else false.

(** Go ranges over the table in an unspecified order; [map_to_list] fixes
    one, and nothing stated below depends on which.  The result holds copies
    of the ready vertices. *)

Definition ready (d : Dag) : list Vertex :=
  filter (λ v, CanExecute d v = true) (map_to_list (Vertices d)).*2.

Definition Next : M (list Vertex) :=
  modify (with_IsStarted true);;
  d ← get;
  if HasFailed d then panic "DAG has failed"
  else mret (ready d).

(** *** Construction *)

Definition NewDag : Dag := mkDag ∅ ∅ ∅ Pending false.

Definition AddVertex (v : Vertex) : M unit :=
  d ← get;
  if IsStarted d then panic "Cannot add vertex to a DAG that has already started"
  else modify (store (ID v) v).

(** The body of the [for] loop of [IsCyclic]; [rec] is the recursive call. *)

Fixpoint IsCyclic_loop (rec : string → option bool) (from : string)
    (cs : list string) : option bool :=
  match cs with
  | [] => Some false
  | child :: rest =>
      if decide (child = from) then Some true
      else match rec child with
           | None => None
           | Some true => Some true
           | Some false => IsCyclic_loop rec from rest
           end
  end.

(** [fuel] bounds the depth of the recursion; [None] means the bound was
    reached. *)

Fixpoint IsCyclic (fuel : nat) (d : Dag) (from to : string) : option bool :=
  match fuel with
  | O => None
  | S n => IsCyclic_loop (IsCyclic n d from) from (children d to)
  end.

Definition cyclic_edge_msg (from to : string) : string :=
  "Cannot add cyclic edge " +:+ from +:+ " -> " +:+ to.

Definition AddEdge (fuel : nat) (from to : string) : M unit :=
  d ← get;
  if IsStarted d then panic "Cannot add edge to a DAG that has already started"
  else
    cyc ← bounded (IsCyclic fuel d from to);
    if cyc : bool then panic (cyclic_edge_msg from to)
    else
      modify (λ d, with_ConnectionsParents
                     (<[to := parents d to ++ [from]]> (ConnectionsParents d)) d);;
      modify (λ d, with_ConnectionsChildren
                     (<[from := children d from ++ [to]]> (ConnectionsChildren d)) d).

(** ** The scheduler loop [ExecuteVertices]

    One execution attempt is one goroutine: it decides pass or fail (the
    program draws this from the clock) and calls [SetPass] or [SetFail] on
    [d.Vertices[vertex.Id()]]. *)

Record Attempt : Type := mkAttempt {
  target : string;
  passes : bool
}.

Definition run_attempt (a : Attempt) : M unit :=
  if passes a then SetPass (target a) else SetFail (target a).

(** The goroutines started for a wave, in the order of the two nested loops:
    [Loop] of them for each vertex of the wave. *)

Definition dispatched (vs : list Vertex) : list string :=
  v ← vs; replicate (Z.to_nat (Loop v)) (ID v).

(** A schedule of a wave lists the attempts in the order in which they take
    the lock.  There is one attempt per started goroutine.  A goroutine is
    handed the address of the loop variable and reads the id when it runs:
    with one variable per iteration that is the vertex of its own iteration,
    with one variable for the whole loop it can be a later vertex of the same
    wave.  Both are covered: an attempt is aimed at some vertex of the wave. *)

Definition schedule (vs : list Vertex) (todo : list Attempt) : Prop :=
  length todo = length (dispatched vs) ∧
  ∀ a, a ∈ todo → target a ∈ ID <$> vs.

(** [if verticesToProcess == nil { d.Status = Passed }] *)

Definition declare_success (vs : list Vertex) (d : Dag) : Dag :=
  match vs with
  | [] => with_Dag_Status Passed d
  | _ :: _ => d
  end.

Definition negative_counter : string := "sync: negative WaitGroup counter".

Inductive Config : Type :=
| AtLoop (d : Dag)
| InWave (d : Dag) (todo : list Attempt)
| Returned (d : Dag)
| Crashed (msg : string) (d : Dag).

Definition dag_of (c : Config) : Dag :=
  match c with
  | AtLoop d | InWave d _ | Returned d | Crashed _ d => d
  end.

(** The counter of a [sync.WaitGroup] is a signed 32-bit integer:
    [wg.Add(n)] adds the low 32 bits of [n] to it and panics when the
    result, read as an [int32], is negative; [wg.Done()] is [wg.Add(-1)]. *)

Definition int32 (z : Z) : Z := ((z + 2 ^ 31) mod 2 ^ 32 - 2 ^ 31)%Z.

(** [wg.Add(v.Loop)] moves the counter by exactly the number of goroutines
    that the inner loop then starts for [v]: [Loop] lies between 0 and
    2^31 - 1, or it is negative with its low 32 bits zero, in which case
    the counter does not move and no goroutine is started. *)

Definition counted (v : Vertex) : Prop :=
  int32 (Loop v) = Z.of_nat (Z.to_nat (Loop v)).

(** Every [Add] of the wave is counted and the goroutines of the wave
    together stay below 2^31: the counter is then the number of goroutines
    that have not finished, whatever the order in which they finish. *)

Definition wave_fits (vs : list Vertex) : Prop :=
  Forall counted vs ∧ (Z.of_nat (length (dispatched vs)) < 2 ^ 31)%Z.

(** The wait group of a wave.  When the wave fits, no [Add] and no [Done]
    panics and [wg.Wait] is a barrier behind the attempts of the wave: the
    wave is dispatched.  When every [Add] is counted but the goroutines
    together do not fit, the counter overflows at an [Add] unless enough
    goroutines have finished before it: the wave is dispatched or the
    counter panics.  When some [Add] is not counted, the counter and the
    goroutines part ways and the runtime ends the run.  The panic of the
    counter is raised when the wave is dispatched, and a run is not
    followed beyond it. *)

Inductive step : Config → Config → Prop :=
| step_return d :
    HasFinished d = true →
    step (AtLoop d) (Returned d)
| step_failed d msg d1 :
    HasFinished d = false →
    Next d = (Panic msg, d1) →
    step (AtLoop d) (Crashed msg d1)
| step_dispatch d vs d1 todo :
    HasFinished d = false →
    Next d = (Ok vs, d1) →
    Forall counted vs →
    schedule vs todo →
    step (AtLoop d) (InWave (declare_success vs d1) todo)
| step_counter_panic d vs d1 :
    HasFinished d = false →
    Next d = (Ok vs, d1) →
    ¬ wave_fits vs →
    step (AtLoop d) (Crashed negative_counter (declare_success vs d1))
| step_attempt d a todo d1 :
    run_attempt a d = (Ok tt, d1) →
    step (InWave d (a :: todo)) (InWave d1 todo)
| step_attempt_panic d a todo msg d1 :
    run_attempt a d = (Panic msg, d1) →
    step (InWave d (a :: todo)) (Crashed msg d1)
| step_barrier d :
    step (InWave d []) (AtLoop d).

(** ** The graph of [main] *)

Definition vertexA : Vertex := mkVertex "A" Pending 1 true.
Definition vertexB : Vertex := mkVertex "B" Pending 1 false.
Definition vertexC : Vertex := mkVertex "C" Pending 11 true.
Definition vertexD : Vertex := mkVertex "D" Pending 3 true.
Definition vertexE : Vertex := mkVertex "E" Pending 1 true.

(** Runs a list of calls in order and stops at the first that does not
    return. *)

Fixpoint calls (ms : list (M unit)) : M unit :=
  match ms with
  | [] => mret tt
  | m :: rest => m;; calls rest
  end.

Definition main_vertices : list (M unit) :=
  [AddVertex vertexA; AddVertex vertexB; AddVertex vertexC;
   AddVertex vertexD; AddVertex vertexE].

Definition main_edges (fuel : nat) : list (M unit) :=
  [AddEdge fuel "A" "B"; AddEdge fuel "A" "C"; AddEdge fuel "B" "D";
   AddEdge fuel "C" "D"; AddEdge fuel "D" "E"; AddEdge fuel "A" "D";
   AddEdge fuel "A" "E"; AddEdge fuel "C" "E"].

Definition main_dag : Dag :=
  (calls (main_vertices ++ main_edges 5) NewDag).2.

(** ** The adjacency as a relation *)

(** The graph after [AddEdge] has recorded the edge: [from] is appended to
    the parents of [to] and [to] to the children of [from]. *)

Definition link (from to : string) (d : Dag) : Dag :=
  mkDag (Vertices d)
        (<[to := parents d to ++ [from]]> (ConnectionsParents d))
        (<[from := children d from ++ [to]]> (ConnectionsChildren d))
        (Dag_Status d) (IsStarted d).

(** [edge d x y]: [y] is listed among the children of [x]. *)

Definition edge (d : Dag) (x y : string) : Prop := y ∈ children d x.

(** No id reaches itself along one or more child edges. *)

Definition acyclic (d : Dag) : Prop := ∀ x, ¬ tc (edge d) x x.

(** Every id that occurs in some child list. *)

Definition all_children (d : Dag) : list string :=
  mjoin (map_to_list (ConnectionsChildren d)).*2.

(** Every id that has a child list. *)


(** The parent table and the child table list the same edges. *)

Definition adjacency_symmetric (d : Dag) : Prop :=
  ∀ x y, x ∈ parents d y ↔ y ∈ children d x.

(** Both ends of every edge are registered vertices. *)

Definition edges_registered (d : Dag) : Prop :=
  ∀ x y, edge d x y → is_Some (Vertices d !! x) ∧ is_Some (Vertices d !! y).

(** Every vertex is registered under its own id, as [AddVertex] does. *)

Definition keys_ok (d : Dag) : Prop :=
  ∀ k v, Vertices d !! k = Some v → ID v = k.

(** Every vertex has at least one repetition. *)

Definition loops_positive (d : Dag) : Prop :=
  ∀ k v, Vertices d !! k = Some v → (1 ≤ Loop v)%Z.

(** No vertex is Pending. *)


(** The ids of the vertices that are still Pending. *)

Definition pending_keys (d : Dag) : gset string :=
  dom (filter (λ kv, Vertex_Status kv.2 = Pending) (Vertices d)).

(** The graphs obtained from [NewDag] by calls of [AddVertex] and [AddEdge]
    that return. *)

Inductive built : Dag → Prop :=
| built_NewDag : built NewDag
| built_AddVertex d v d' :
    built d → AddVertex v d = (Ok tt, d') → built d'
| built_AddEdge d fuel from to d' :
    built d → AddEdge fuel from to d = (Ok tt, d') → built d'.

(** ** Runs *)

(** Two states of one vertex object: identity, repetition count and failure
    policy are those of the object, and a status that has left Pending does
    not come back to it. *)

Definition same_vertex (v v' : Vertex) : Prop :=
  ID v' = ID v ∧ Loop v' = Loop v ∧ CanFail v' = CanFail v ∧
  (Vertex_Status v ≠ Pending → Vertex_Status v' ≠ Pending).

(** What [Next], [SetPass], [SetFail] and the loop can do to a graph: the
    adjacency and the set of registered ids stay, a started graph stays
    started, and each vertex object evolves as above. *)

Record evolves (d d' : Dag) : Prop := mk_evolves {
  ev_parents : ConnectionsParents d' = ConnectionsParents d;
  ev_children : ConnectionsChildren d' = ConnectionsChildren d;
  ev_started : IsStarted d = true → IsStarted d' = true;
  ev_vertices : ∀ k, option_Forall2 same_vertex (Vertices d !! k) (Vertices d' !! k)
}.

(** While a wave is in flight the graph status is Passed only if the wave
    is empty: success is declared on an empty ready set, for which no
    attempt is dispatched. *)

Definition settled (c : Config) : Prop :=
  match c with
  | InWave d todo => Dag_Status d = Passed → todo = []
  | _ => True
  end.

(** The calls a client or the scheduler can make on the graph. *)



(** The graphs met after the first readiness computation: the graph left by
    a call of [Next], or by a first step of [ExecuteVertices] on a graph that
    has not finished, and every graph that later calls or steps lead to. *)


(** An attempt is fatal when it reports the failure of a vertex whose
    [CanFail] is false. *)

Definition fatal (d : Dag) (a : Attempt) : Prop :=
  passes a = false ∧ ∃ v, Vertices d !! target a = Some v ∧ CanFail v = false.

(** No attempt still to come in the current wave is fatal. *)

Definition benign (c : Config) : Prop :=
  match c with
  | InWave d todo => ∀ a, a ∈ todo → ¬ fatal d a
  | _ => True
  end.

(** The steps of the runs in which no vertex that must not fail reports a
    failure: a wave is dispatched only with a schedule free of fatal
    attempts. *)

Definition bstep (c c' : Config) : Prop := step c c' ∧ benign c'.

(** The graph has not failed, and it has passed only on an empty ready
    set. *)


(** What holds of every configuration of such a run. *)


(** The attempts of a wave when every one of them passes. *)

Definition all_pass (vs : list Vertex) : list Attempt :=
  (λ k, mkAttempt k true) <$> dispatched vs.

(** ** Graphs used as examples *)

(** The edge calls of a list of pairs. *)

Definition edge_calls (fuel : nat) (es : list (string * string)) : list (M unit) :=
  (λ e, AddEdge fuel e.1 e.2) <$> es.

(** The adjacency that [main] builds. *)

Definition main_children : gmap string (list string) :=
  list_to_map [("A", ["B"; "C"; "D"; "E"]); ("B", ["D"]);
               ("C", ["D"; "E"]); ("D", ["E"])].

Definition main_parents : gmap string (list string) :=
  list_to_map [("B", ["A"]); ("C", ["A"]); ("D", ["B"; "C"; "A"]);
               ("E", ["D"; "A"; "C"])].

(** A numbering of the ids, by their first character, that grows along the
    edges of [main]. *)

Definition main_rank (s : string) : nat :=
  match s with
  | EmptyString => 0
  | String a _ => Ascii.nat_of_ascii a
  end.

(** The graph of [main] after vertex B, which must not fail, has failed. *)

Definition main_dag_failed : Dag := (SetFail "B" main_dag).2.

(** A graph with the single vertex [A] and no edge. *)

Definition self_loop_input : Dag := (AddVertex vertexA NewDag).2.

(** The graph that holds vertex B only, and what is left of it when its
    single attempt has failed. *)

Definition single_dag : Dag := (AddVertex vertexB NewDag).2.

Definition single_failed : Dag :=
  (SetFail "B" (with_IsStarted true single_dag)).2.

(** Vertex B with an edge from the id X, which no vertex bears. *)

Definition dangling_dag : Dag :=
  (calls [AddVertex vertexB; AddEdge 1 "X" "B"] NewDag).2.

(** A vertex literal that leaves [Loop] out has [Loop] zero. *)

Definition idle_vertex : Vertex := mkVertex "A" Pending 0 true.

Definition idle_dag : Dag := (AddVertex idle_vertex NewDag).2.

(** ** Whole waves and outcomes of runs *)

(** Every vertex has a repetition count that is not negative. *)

Definition loops_nonneg (d : Dag) : Prop :=
  ∀ k v, Vertices d !! k = Some v → (0 ≤ Loop v)%Z.

(** The repetition counts of all the registered vertices together stay
    below 2^31. *)

Definition sum_Z (l : list Z) : Z := foldr Z.add 0%Z l.

Definition loop_total (d : Dag) : Z :=
  sum_Z (map_to_list (Loop <$> Vertices d)).*2.

Definition loops_fit (d : Dag) : Prop := (loop_total d < 2 ^ 31)%Z.

(** A single vertex with 2^31 repetitions. *)



(** The attempts of a list run one after the other, each under the lock. *)

Definition run_wave (todo : list Attempt) (d : Dag) : Dag :=
  foldl (λ d a, (run_attempt a d).2) d todo.

(** The status an attempt writes when its write lands. *)

Definition verdict (a : Attempt) : Status :=
  if passes a then Passed else Failed.

(** Some registered vertex that must not fail has the status Failed. *)

Definition culprit (d : Dag) : Prop :=
  ∃ k v, Vertices d !! k = Some v ∧ CanFail v = false ∧
         Vertex_Status v = Failed.

(** Every attempt still to come is aimed at a registered vertex, a return
    happens on a finished graph, and nothing has panicked. *)

Definition safe (c : Config) : Prop :=
  match c with
  | AtLoop _ => True
  | InWave d todo => ∀ a, a ∈ todo → is_Some (Vertices d !! target a)
  | Returned d => HasFinished d = true
  | Crashed _ _ => False
  end.

(** What the graph status says about the vertices during a run. *)

Definition outcome_inv (c : Config) : Prop :=
  (Dag_Status (dag_of c) = Passed → ready (dag_of c) = []) ∧
  (Dag_Status (dag_of c) = Failed → culprit (dag_of c)).

(** The graph with the vertex A and the edge from A to itself. *)

Definition self_loop_dag : Dag := link "A" "A" self_loop_input.

(** * Properties *)

(** ** Closed forms of the methods *)

Ltac unfold_M :=
  unfold mbind, M_bind, mret, M_ret, panic, get, modify, bounded, deref in *;
  cbv beta iota in *.

Lemma HasFailed_true d : HasFailed d = true ↔ Dag_Status d = Failed.
Proof. unfold HasFailed. apply bool_decide_eq_true. Qed.

Lemma HasFailed_false d : HasFailed d = false ↔ Dag_Status d ≠ Failed.
Proof. unfold HasFailed. apply bool_decide_eq_false. Qed.

Lemma HasFinished_false d : HasFinished d = false ↔ Dag_Status d = Pending.
Proof.
  unfold HasFinished, HasFailed, HasSucceeded.
  repeat case_bool_decide; destruct (Dag_Status d); naive_solver.
Qed.


(** Readiness reads the vertex table and the parent table only. *)

Lemma parents_resolved_ext d d' ps :
  Vertices d = Vertices d' → parents_resolved d ps = parents_resolved d' ps.
Proof.
  intros Hv. induction ps as [|p ps IH]; [done|].
  cbn. rewrite Hv, IH. done.
Qed.

Lemma CanExecute_ext d d' v :
  Vertices d = Vertices d' → ConnectionsParents d = ConnectionsParents d' →
  CanExecute d v = CanExecute d' v.
Proof.
  intros Hv Hp. unfold CanExecute, parents. rewrite Hp.
  by rewrite (parents_resolved_ext d d').
Qed.

Lemma ready_ext d d' :
  Vertices d = Vertices d' → ConnectionsParents d = ConnectionsParents d' →
  ready d = ready d'.
Proof.
  intros Hv Hp. unfold ready. rewrite Hv.
  apply list_filter_iff. intros v. by rewrite (CanExecute_ext d d').
Qed.

Lemma SetPass_eq k d :
  SetPass k d =
  match Vertices d !! k with
  | None => (Panic nil_dereference, d)
  | Some v =>
      (Ok tt, if HasFailed d then d else store k (with_Vertex_Status Passed v) d)
  end.
Proof.
  unfold SetPass; unfold_M.
  destruct (Vertices d !! k); [|done]. by destruct (HasFailed d).
Qed.

Lemma SetFail_eq k d :
  SetFail k d =
  match Vertices d !! k with
  | None => (Panic nil_dereference, d)
  | Some v =>
      (Ok tt,
       if HasFailed d then d
       else if CanFail v then store k (with_Vertex_Status Failed v) d
       else with_Dag_Status Failed (store k (with_Vertex_Status Failed v) d))
  end.
Proof.
  unfold SetFail; unfold_M.
  destruct (Vertices d !! k) as [v|]; [|done].
  destruct (HasFailed d); [done|]. by destruct (CanFail v).
Qed.

Lemma Next_eq d :
  Next d =
  if HasFailed d then (Panic "DAG has failed", with_IsStarted true d)
  else (Ok (ready d), with_IsStarted true d).
Proof.
  unfold Next; unfold_M.
  change (HasFailed (with_IsStarted true d)) with (HasFailed d).
  destruct (HasFailed d); [done|].
  by rewrite (ready_ext (with_IsStarted true d) d).
Qed.

Lemma AddVertex_eq v d :
  AddVertex v d =
  if IsStarted d
  then (Panic "Cannot add vertex to a DAG that has already started", d)
  else (Ok tt, store (ID v) v d).
Proof. unfold AddVertex; unfold_M. by destruct (IsStarted d). Qed.

Lemma AddEdge_eq fuel from to d :
  AddEdge fuel from to d =
  if IsStarted d
  then (Panic "Cannot add edge to a DAG that has already started", d)
  else match IsCyclic fuel d from to with
       | None => (OutOfFuel, d)
       | Some true => (Panic (cyclic_edge_msg from to), d)
       | Some false => (Ok tt, link from to d)
       end.
Proof.
  unfold AddEdge; unfold_M. destruct (IsStarted d); [done|].
  by destruct (IsCyclic fuel d from to) as [[]|].
Qed.

(** ** The adjacency relation and cycle detection *)

Lemma edge_all_children d x y : edge d x y → y ∈ all_children d.
Proof.
  unfold edge, children, all_children. intros Hy.
  destruct (ConnectionsChildren d !! x) as [ys|] eqn:Hx; cbn in Hy.
  - apply list_elem_of_join. exists ys. split; [done|].
    apply list_elem_of_fmap. exists (x, ys). split; [done|].
    by apply elem_of_map_to_list.
  - by apply elem_of_nil in Hy.
Qed.

Lemma tc_edge_all_children d x y : tc (edge d) x y → y ∈ all_children d.
Proof. induction 1; eauto using edge_all_children. Qed.

Lemma tc_edge_inv d x y :
  tc (edge d) x y → ∃ c, c ∈ children d x ∧ (c = y ∨ tc (edge d) c y).
Proof. destruct 1 as [x y H|x c y H Hc]; exists c || exists y; eauto. Qed.

Lemma acyclic_sn d x : acyclic d → sn (edge d) x.
Proof.
  intros Hac. apply tc_finite_sn.
  - intros y. apply Hac.
  - exists (all_children d). apply tc_edge_all_children.
Qed.

Lemma sn_no_cycle {A : Type} (R : relation A) x : sn R x → ¬ tc R x x.
Proof.
  induction 1 as [x _ IH]. intros Htc.
  assert (∃ y, R x y ∧ rtc R y x) as (y & Hxy & Hyx).
  { inversion Htc as [? ? H|? y ? H Hy]; subst.
    - by exists x.
    - exists y. split; [done|by apply tc_rtc]. }
  apply (IH y Hxy). eapply tc_rtc_l; [exact Hyx|by apply tc_once].
Qed.

(** Descent along child edges is well founded exactly on the acyclic
    graphs. *)

Lemma edge_sn_iff_acyclic d : (∀ x, sn (edge d) x) ↔ acyclic d.
Proof.
  split.
  - intros Hsn x. apply sn_no_cycle, Hsn.
  - intros Hac x. by apply acyclic_sn.
Qed.

(** A strictly increasing numbering of the vertices along the edges rules
    out cycles. *)

Lemma ranked_acyclic d (rank : string → nat) :
  (∀ x y, edge d x y → rank x < rank y) → acyclic d.
Proof.
  intros Hr. assert (∀ x y, tc (edge d) x y → rank x < rank y) as Htc.
  { induction 1 as [x y H|x y z H _ IH]; [by apply Hr|].
    apply Hr in H. lia. }
  intros x Hx. apply Htc in Hx. lia.
Qed.

Lemma edge_Forall d (P : string → string → Prop) :
  map_Forall (λ x ys, Forall (P x) ys) (ConnectionsChildren d) →
  ∀ x y, edge d x y → P x y.
Proof.
  intros Hall x y. unfold edge, children.
  destruct (ConnectionsChildren d !! x) as [ys|] eqn:Hx; cbn.
  - intros Hy. specialize (Hall x ys Hx). cbn in Hall.
    rewrite Forall_forall in Hall. by apply Hall.
  - by intros ?%elem_of_nil.
Qed.

(** *** The loop of [IsCyclic] *)

Lemma IsCyclic_loop_true rec from cs :
  IsCyclic_loop rec from cs = Some true →
  ∃ c, c ∈ cs ∧ (c = from ∨ rec c = Some true).
Proof.
  induction cs as [|c cs IH]; cbn; [done|].
  destruct (decide (c = from)) as [->|Hne].
  - intros _. exists from. split; [left|by left].
  - destruct (rec c) as [[]|] eqn:Hc; [| |done].
    + intros _. exists c. split; [left|by right].
    + intros (c' & Hin & Hc')%IH. exists c'. split; [by right|done].
Qed.

Lemma IsCyclic_loop_false rec from cs :
  IsCyclic_loop rec from cs = Some false →
  ∀ c, c ∈ cs → c ≠ from ∧ rec c = Some false.
Proof.
  induction cs as [|c cs IH]; cbn.
  - by intros _ c ?%elem_of_nil.
  - destruct (decide (c = from)) as [->|Hne]; [done|].
    destruct (rec c) as [[]|] eqn:Hc; [done| |done].
    intros Hl c' [->|Hin]%elem_of_cons; [done|by apply IH].
Qed.

Lemma IsCyclic_loop_total rec from cs :
  (∀ c, c ∈ cs → is_Some (rec c)) → is_Some (IsCyclic_loop rec from cs).
Proof.
  induction cs as [|c cs IH]; cbn; intros Hrec; [by eexists|].
  destruct (decide (c = from)); [by eexists|].
  destruct (Hrec c) as [[] Hc]; [left| |]; rewrite Hc; [by eexists|].
  apply IH. intros c' Hin. apply Hrec. by right.
Qed.

Lemma IsCyclic_loop_mono rec rec' from cs b :
  (∀ c b', rec c = Some b' → rec' c = Some b') →
  IsCyclic_loop rec from cs = Some b → IsCyclic_loop rec' from cs = Some b.
Proof.
  intros Hrec. induction cs as [|c cs IH]; cbn; [done|].
  destruct (decide (c = from)); [done|].
  destruct (rec c) as [[]|] eqn:Hc; [| |done]; rewrite (Hrec _ _ Hc); auto.
Qed.

(** More fuel never changes an answer already obtained. *)

Lemma IsCyclic_mono d from n m to b :
  n ≤ m → IsCyclic n d from to = Some b → IsCyclic m d from to = Some b.
Proof.
  revert m to b. induction n as [|n IH]; intros m to b Hle; [done|].
  destruct m as [|m]; [lia|]. cbn.
  apply IsCyclic_loop_mono. intros c b'. apply IH. lia.
Qed.

(** An answer [true] is a path from [to] to [from] along child edges, and
    an answer [false] means there is none; this holds on every graph. *)

Lemma IsCyclic_true fuel d from to :
  IsCyclic fuel d from to = Some true → tc (edge d) to from.
Proof.
  revert to. induction fuel as [|n IH]; intros to; [done|]. cbn.
  intros (c & Hin & [->|Hc])%IsCyclic_loop_true.
  - by apply tc_once.
  - eapply tc_l; [exact Hin|by apply IH].
Qed.

Lemma IsCyclic_false fuel d from to :
  IsCyclic fuel d from to = Some false → ¬ tc (edge d) to from.
Proof.
  revert to. induction fuel as [|n IH]; intros to; [done|]. cbn.
  intros Hl (c & Hin & Hc)%tc_edge_inv.
  destruct (IsCyclic_loop_false _ _ _ Hl c Hin) as [Hne Hrec].
  destruct Hc as [->|Hc]; [done|]. by apply (IH c).
Qed.

Lemma bound_all {A : Type} (P : A → nat → Prop) (l : list A) :
  (∀ y n m, P y n → n ≤ m → P y m) →
  (∀ y, y ∈ l → ∃ n, P y n) →
  ∃ N, ∀ y, y ∈ l → P y N.
Proof.
  intros Hmono. induction l as [|a l IH]; intros Hall.
  - exists 0. by intros y ?%elem_of_nil.
  - destruct (Hall a) as [n Hn]; [left|].
    destruct IH as [N HN]; [intros y Hy; apply Hall; by right|].
    exists (n `max` N). intros y [->|Hy]%elem_of_cons.
    + eapply Hmono; [exact Hn|lia].
    + eapply Hmono; [by apply HN|lia].
Qed.

(** On a node from which no infinite descent along child edges starts, a
    recursion depth exists that suffices for every [from]. *)

Lemma IsCyclic_sn_total d to :
  sn (edge d) to →
  ∃ n, ∀ from fuel, n ≤ fuel → is_Some (IsCyclic fuel d from to).
Proof.
  induction 1 as [x _ IH].
  destruct (bound_all
    (λ y n, ∀ from fuel, n ≤ fuel → is_Some (IsCyclic fuel d from y))
    (children d x)) as [N HN].
  - intros y n m Hn Hle from fuel Hfuel. apply Hn. lia.
  - intros y Hy. by apply IH.
  - exists (S N). intros from fuel Hfuel.
    destruct fuel as [|fuel]; [lia|]. cbn.
    apply IsCyclic_loop_total. intros c Hc. apply (HN c Hc). lia.
Qed.

Lemma main_dag_acyclic : acyclic main_dag.
Proof.
  apply (ranked_acyclic _ main_rank), edge_Forall.
  apply map_Forall_to_list.
  vm_compute map_to_list.
  repeat (constructor; cbn [uncurry]); vm_compute; lia.
Qed.

(** C10: on a finite acyclic child adjacency, [IsCyclic(from, to)]
    terminates: some recursion depth suffices, every larger one gives the
    same answer, and the answer tells whether [from] is reachable from [to]
    along child edges. *)
Theorem IsCyclic_terminates d from to :
  acyclic d →
  ∃ n b, (∀ fuel, n ≤ fuel → IsCyclic fuel d from to = Some b) ∧
         (b = true ↔ tc (edge d) to from).
Proof.
  intros Hac.
  destruct (IsCyclic_sn_total d to (acyclic_sn d to Hac)) as [n Hn].
  destruct (Hn from n (le_n n)) as [b Hb].
  exists n, b. split.
  - intros fuel Hle. by apply (IsCyclic_mono d from n).
  - destruct b.
    + split; [intros _; by apply (IsCyclic_true n)|done].
    + split; [done|]. intros Htc. by apply IsCyclic_false in Hb.
Qed.

Lemma IsCyclic_terminates_witness :
  ∃ n b, (∀ fuel, n ≤ fuel → IsCyclic fuel main_dag "B" "E" = Some b) ∧
         (b = true ↔ tc (edge main_dag) "E" "B").
Proof.
  apply (IsCyclic_terminates main_dag "B" "E").
  apply (ranked_acyclic _ main_rank), edge_Forall.
  apply map_Forall_to_list.
  vm_compute map_to_list.
  repeat (constructor; cbn [uncurry]); vm_compute; lia.
Defined.

(** *** The effect of an accepted edge on the relation *)

Lemma children_link from to d x :
  children (link from to d) x =
  if decide (x = from) then children d from ++ [to] else children d x.
Proof.
  unfold children at 1. cbn. destruct (decide (x = from)) as [->|Hne].
  - by rewrite lookup_insert_eq.
  - by rewrite lookup_insert_ne.
Qed.

Lemma parents_link from to d x :
  parents (link from to d) x =
  if decide (x = to) then parents d to ++ [from] else parents d x.
Proof.
  unfold parents at 1. cbn. destruct (decide (x = to)) as [->|Hne].
  - by rewrite lookup_insert_eq.
  - by rewrite lookup_insert_ne.
Qed.

Lemma edge_link from to d x y :
  edge (link from to d) x y ↔ edge d x y ∨ (x = from ∧ y = to).
Proof.
  unfold edge. rewrite children_link. destruct (decide (x = from)) as [->|Hne].
  - rewrite elem_of_app, list_elem_of_singleton. split.
    + intros [H| ->]; [by left|by right].
    + intros [H|[_ ->]]; [by left|by right].
  - split; [by left|]. by intros [H|[-> _]].
Qed.

Lemma tc_link from to d x y :
  tc (edge (link from to d)) x y →
  tc (edge d) x y ∨ (rtc (edge d) x from ∧ rtc (edge d) to y).
Proof.
  induction 1 as [x y H|x y z H _ IH].
  - apply edge_link in H as [H|[-> ->]]; [left; by apply tc_once|by right].
  - apply edge_link in H as [H|[-> ->]].
    + destruct IH as [IH|[IH1 IH2]].
      * left. by eapply tc_l.
      * right. split; [by eapply rtc_l|done].
    + right. split; [done|].
      destruct IH as [IH|[IH1 IH2]]; [by apply tc_rtc|done].
Qed.

Lemma tc_link_mono from to d x y :
  tc (edge d) x y → tc (edge (link from to d)) x y.
Proof.
  apply (tc_congruence id). intros a b H. apply edge_link. by left.
Qed.

(** Linking [from] to [to] keeps the relation acyclic exactly when [from]
    was not reachable from [to] in zero or more steps. *)

Lemma acyclic_link from to d :
  acyclic d → ¬ rtc (edge d) to from → acyclic (link from to d).
Proof.
  intros Hac Hnr x [Hx|[H1 H2]]%tc_link; [by apply (Hac x)|].
  apply Hnr. by etrans.
Qed.

Lemma cyclic_link from to d :
  rtc (edge d) to from → tc (edge (link from to d)) from from.
Proof.
  intros Hr. eapply tc_rtc_r.
  - apply tc_once, edge_link. by right.
  - eapply rtc_subrel; [|exact Hr]. intros a b H. apply edge_link. by left.
Qed.

(** [AddEdge] on a graph that has not started, with enough fuel: the edge is
    refused when [from] is reachable from [to] in one or more steps, and
    recorded otherwise. *)

Lemma AddEdge_decides d from to :
  IsStarted d = false → acyclic d →
  ∃ n, ∀ fuel, n ≤ fuel →
    (tc (edge d) to from →
       AddEdge fuel from to d = (Panic (cyclic_edge_msg from to), d)) ∧
    (¬ tc (edge d) to from →
       AddEdge fuel from to d = (Ok tt, link from to d)).
Proof.
  intros Hs Hac.
  destruct (IsCyclic_sn_total d to (acyclic_sn d to Hac)) as [n Hn].
  exists n. intros fuel Hle. rewrite AddEdge_eq, Hs.
  destruct (Hn from fuel Hle) as [[] Hb]; rewrite Hb.
  - split; [done|]. intros []. by apply (IsCyclic_true fuel).
  - split; [|done]. intros Htc. by apply IsCyclic_false in Hb.
Qed.

(** An accepted edge between two different ids keeps an acyclic graph
    acyclic. *)

Lemma AddEdge_keeps_acyclic fuel d from to d' :
  from ≠ to → acyclic d →
  AddEdge fuel from to d = (Ok tt, d') → acyclic d'.
Proof.
  intros Hne Hac. rewrite AddEdge_eq.
  destruct (IsStarted d); [done|].
  destruct (IsCyclic fuel d from to) as [[]|] eqn:Hc; [done| |done].
  intros [= <-]. apply acyclic_link; [done|].
  intros [->|Htc]%rtc_tc; [done|]. by apply IsCyclic_false in Hc.
Qed.

Lemma AddEdge_fuel n m from to d :
  n ≤ m → (AddEdge n from to d).1 ≠ OutOfFuel →
  AddEdge m from to d = AddEdge n from to d.
Proof.
  intros Hle. rewrite !AddEdge_eq. destruct (IsStarted d); [done|].
  destruct (IsCyclic n d from to) as [b|] eqn:Hb; [|done].
  by rewrite (IsCyclic_mono d from n m to b).
Qed.

Lemma calls_app ms1 ms2 d :
  calls (ms1 ++ ms2) d =
  match calls ms1 d with
  | (Ok _, d') => calls ms2 d'
  | r => r
  end.
Proof.
  revert d. induction ms1 as [|m ms1 IH]; intros d; [done|].
  cbn. unfold mbind, M_bind. destruct (m d) as [[[]| |] d']; auto.
Qed.

Lemma edge_calls_fuel n m es d :
  n ≤ m → (calls (edge_calls n es) d).1 = Ok tt →
  calls (edge_calls m es) d = calls (edge_calls n es) d.
Proof.
  intros Hle. revert d. induction es as [|[f t] es IH]; intros d; [done|].
  cbn. unfold mbind, M_bind. intros H.
  rewrite (AddEdge_fuel n m) by (done || by destruct (AddEdge n f t d) as [[]]).
  destruct (AddEdge n f t d) as [[[]| |] d']; auto.
Qed.

(** ** Edge insertion: the self-loop *)

Lemma AddEdge_self_loop d x :
  IsStarted d = false → acyclic d →
  ∃ n, ∀ fuel, n ≤ fuel →
    AddEdge fuel x x d = (Ok tt, link x x d) ∧ ¬ acyclic (link x x d).
Proof.
  intros Hs Hac. destruct (AddEdge_decides d x x Hs Hac) as [n Hn].
  exists n. intros fuel Hle. split.
  - apply Hn; [done|]. apply Hac.
  - intros Hac'. apply (Hac' x), cyclic_link. done.
Qed.

(** C1 (evaluation at the failing input): on the graph that holds the
    vertex A only, [AddEdge("A", "A")] does not panic: it records A as its
    own parent and child, and the adjacency then has a cycle.  After it,
    [IsCyclic] no longer returns on a query such as [IsCyclic("B", "A")]. *)
Theorem AddEdge_accepts_self_loop n :
  AddEdge (S n) "A" "A" self_loop_input = (Ok tt, link "A" "A" self_loop_input) ∧
  children (link "A" "A" self_loop_input) "A" = ["A"] ∧
  parents (link "A" "A" self_loop_input) "A" = ["A"] ∧
  tc (edge (link "A" "A" self_loop_input)) "A" "A" ∧
  ∀ fuel, IsCyclic fuel (link "A" "A" self_loop_input) "B" "A" = None.
Proof.
  assert (children (link "A" "A" self_loop_input) "A" = ["A"]) as Hc
    by (vm_compute; reflexivity).
  split; [|split; [done|split; [by vm_compute|split]]].
  - rewrite AddEdge_eq. change (IsStarted self_loop_input) with false.
    cbn [IsCyclic].
    replace (children self_loop_input "A") with (@nil string)
      by (vm_compute; reflexivity).
    done.
  - apply tc_once. unfold edge. rewrite Hc. left.
  - induction fuel as [|fuel IH]; [done|].
    cbn [IsCyclic]. rewrite Hc. cbn. by rewrite IH.
Qed.

(** ** The scenario of [main] *)

(** C8: on the graph with the vertices A to E, the eight [AddEdge] calls of
    [main] all return, in their order, and leave the adjacency of [main];
    after them [AddEdge("B","A")], [AddEdge("D","A")] and [AddEdge("E","A")]
    each panic with the cyclic-edge message and leave the graph as it was.
    This holds for every recursion bound from 5 on. *)
Theorem main_edges_scenario n :
  calls (main_vertices ++ main_edges (5 + n)) NewDag = (Ok tt, main_dag) ∧
  ConnectionsChildren main_dag = main_children ∧
  ConnectionsParents main_dag = main_parents ∧
  AddEdge (5 + n) "B" "A" main_dag =
    (Panic "Cannot add cyclic edge B -> A", main_dag) ∧
  AddEdge (5 + n) "D" "A" main_dag =
    (Panic "Cannot add cyclic edge D -> A", main_dag) ∧
  AddEdge (5 + n) "E" "A" main_dag =
    (Panic "Cannot add cyclic edge E -> A", main_dag).
Proof.
  split; [|split; [by vm_compute|split; [by vm_compute|]]].
  - rewrite calls_app.
    change (main_edges (5 + n)) with
      (edge_calls (5 + n)
         [("A", "B"); ("A", "C"); ("B", "D"); ("C", "D"); ("D", "E");
          ("A", "D"); ("A", "E"); ("C", "E")]).
    destruct (calls main_vertices NewDag) as [r d5] eqn:Hv.
    vm_compute in Hv. injection Hv as <- <-.
    rewrite (edge_calls_fuel 5 (5 + n)) by (lia || by vm_compute).
    by vm_compute.
  - repeat split; rewrite (AddEdge_fuel 5 (5 + n)) by (lia || by vm_compute);
      by vm_compute.
Qed.

(** ** Readiness *)

Lemma parents_resolved_true d ps :
  parents_resolved d ps = true ↔
  ∀ p, p ∈ ps → ∃ pv, Vertices d !! p = Some pv ∧ Vertex_Status pv ≠ Pending.
Proof.
  induction ps as [|q ps IH]; cbn.
  - split; [|done]. by intros _ p ?%elem_of_nil.
  - destruct (Vertices d !! q) as [qv|] eqn:Hq.
    + destruct (decide (Vertex_Status qv = Pending)) as [Hs|Hs].
      * split; [done|]. intros H. destruct (H q) as (pv & Hpv & Hne); [left|].
        by simplify_eq.
      * rewrite IH. split.
        -- intros H p [->|Hp]%elem_of_cons; [by exists qv|by apply H].
        -- intros H p Hp. apply H. by right.
    + split; [done|]. intros H. destruct (H q) as (pv & Hpv & _); [left|].
      by simplify_eq.
Qed.

Lemma CanExecute_true d v :
  CanExecute d v = true ↔
  Vertex_Status v = Pending ∧
  ∀ p, p ∈ parents d (ID v) →
       ∃ pv, Vertices d !! p = Some pv ∧ Vertex_Status pv ≠ Pending.
Proof.
  rewrite <- parents_resolved_true.
  unfold CanExecute. destruct (parents_resolved d (parents d (ID v))).
  - destruct (decide (Vertex_Status v = Pending)); intuition congruence.
  - intuition congruence.
Qed.

(** C2: [CanExecute(v)] is true exactly when the status of [v] is Pending
    and every id listed in [ConnectionsParents[v.ID]] is the id of a
    registered vertex whose status is not Pending; in particular a Pending
    vertex without parents is ready.  When all the listed parents are
    registered, the condition on them is that none of them is Pending. *)
Theorem CanExecute_iff d v :
  (CanExecute d v = true ↔
     Vertex_Status v = Pending ∧
     ∀ p, p ∈ parents d (ID v) →
          ∃ pv, Vertices d !! p = Some pv ∧ Vertex_Status pv ≠ Pending) ∧
  (parents d (ID v) = [] → Vertex_Status v = Pending → CanExecute d v = true) ∧
  ((∀ p, p ∈ parents d (ID v) → is_Some (Vertices d !! p)) →
   (CanExecute d v = true ↔
      Vertex_Status v = Pending ∧
      ∀ p pv, p ∈ parents d (ID v) → Vertices d !! p = Some pv →
              Vertex_Status pv ≠ Pending)).
Proof.
  split; [apply CanExecute_true|split].
  - intros Hnil Hs. apply CanExecute_true. split; [done|].
    rewrite Hnil. by intros p ?%elem_of_nil.
  - intros Hreg. rewrite CanExecute_true. split.
    + intros [Hs Hall]. split; [done|]. intros p pv Hp Hpv.
      destruct (Hall p Hp) as (pv' & Hpv' & Hne). congruence.
    + intros [Hs Hall]. split; [done|]. intros p Hp.
      destruct (Hreg p Hp) as [pv Hpv]. exists pv. split; [done|].
      by apply (Hall p).
Qed.

Lemma CanExecute_iff_witness :
  CanExecute main_dag vertexA = true ∧ CanExecute main_dag vertexB = false.
Proof.
  split.
  - destruct (CanExecute_iff main_dag vertexA) as (_ & Hroot & _).
    apply Hroot; by vm_compute.
  - apply not_true_is_false. intros H.
    destruct (CanExecute_iff main_dag vertexB) as (Hiff & _ & _).
    apply Hiff in H as [_ H].
    destruct (H "A") as (pv & Hpv & Hne); [vm_compute; left|].
    vm_compute in Hpv. injection Hpv as <-. by apply Hne.
Defined.

(** ** Recording outcomes *)

(** C3: [SetFail] on a registered vertex [v].  While the graph has not
    failed it sets the status of [v] to Failed, keeps the id, the repetition
    count and the failure policy of [v], and leaves the other vertices
    alone; the graph status becomes Failed exactly when [v.CanFail] is false
    (it is kept otherwise).  Once the graph has failed the call changes
    nothing. *)
Theorem SetFail_effect d k v :
  Vertices d !! k = Some v →
  (Dag_Status d ≠ Failed →
     ∃ d', SetFail k d = (Ok tt, d') ∧
       Vertices d' =
         <[k := mkVertex (ID v) Failed (Loop v) (CanFail v)]> (Vertices d) ∧
       (∃ v', Vertices d' !! k = Some v' ∧ Vertex_Status v' = Failed) ∧
       (Dag_Status d' = Failed ↔ CanFail v = false) ∧
       (CanFail v = true → Dag_Status d' = Dag_Status d)) ∧
  (Dag_Status d = Failed → SetFail k d = (Ok tt, d)).
Proof.
  intros Hk. rewrite SetFail_eq, Hk. split.
  - intros Hnf%HasFailed_false. rewrite Hnf. apply HasFailed_false in Hnf.
    unfold with_Vertex_Status.
    destruct (CanFail v); eexists; (split; [reflexivity|]); cbn;
      (split; [reflexivity|]);
      (split; [eexists; split; [apply lookup_insert_eq|reflexivity]|]);
      intuition congruence.
  - intros Hf%HasFailed_true. by rewrite Hf.
Qed.

Lemma SetFail_effect_witness :
  (∃ d' v', SetFail "B" main_dag = (Ok tt, d') ∧
     Vertices d' !! "B" = Some v' ∧ Vertex_Status v' = Failed ∧
     Dag_Status d' = Failed) ∧
  (∃ d' v', SetFail "A" main_dag = (Ok tt, d') ∧
     Vertices d' !! "A" = Some v' ∧ Vertex_Status v' = Failed ∧
     Dag_Status d' = Pending).
Proof.
  split.
  - destruct (SetFail_effect main_dag "B" vertexB) as [H _]; [by vm_compute|].
    destruct H as (d' & Hd' & _ & (v' & Hv' & Hs') & Hs & _); [by vm_compute|].
    exists d', v'. split; [done|]. split; [done|]. split; [done|]. by apply Hs.
  - destruct (SetFail_effect main_dag "A" vertexA) as [H _]; [by vm_compute|].
    destruct H as (d' & Hd' & _ & (v' & Hv' & Hs') & _ & Hs); [by vm_compute|].
    exists d', v'. split; [done|]. split; [done|]. split; [done|]. by rewrite Hs.
Defined.

(** ** What the run leaves alone *)

Lemma same_vertex_refl v : same_vertex v v.
Proof. by repeat split. Qed.

Lemma same_vertex_trans v1 v2 v3 :
  same_vertex v1 v2 → same_vertex v2 v3 → same_vertex v1 v3.
Proof.
  intros (?&?&?&?) (?&?&?&?). repeat split; try congruence. auto.
Qed.

Lemma same_vertex_set s v : s ≠ Pending → same_vertex v (with_Vertex_Status s v).
Proof. by repeat split. Qed.

Lemma evolves_refl d : evolves d d.
Proof.
  split; try done. intros k.
  destruct (Vertices d !! k); constructor. apply same_vertex_refl.
Qed.

Lemma evolves_trans d1 d2 d3 : evolves d1 d2 → evolves d2 d3 → evolves d1 d3.
Proof.
  intros [Hp Hc Hs Hv] [Hp' Hc' Hs' Hv']. split; try congruence; [auto|].
  intros k. specialize (Hv k). specialize (Hv' k).
  destruct Hv as [v1 v2 H12|]; inversion Hv' as [v2' v3 H23|]; subst;
    constructor. by eapply same_vertex_trans.
Qed.

Lemma evolves_store d k v v' :
  Vertices d !! k = Some v → same_vertex v v' → evolves d (store k v' d).
Proof.
  intros Hk Hsame. split; try done. intros j. cbn.
  destruct (decide (j = k)) as [->|Hne].
  - rewrite lookup_insert_eq, Hk. by constructor.
  - rewrite lookup_insert_ne by done.
    destruct (Vertices d !! j); constructor. apply same_vertex_refl.
Qed.

Lemma evolves_Dag_Status s d : evolves d (with_Dag_Status s d).
Proof.
  split; try done. intros k. cbn.
  destruct (Vertices d !! k); constructor. apply same_vertex_refl.
Qed.

Lemma evolves_IsStarted d : evolves d (with_IsStarted true d).
Proof.
  split; try done. intros k. cbn.
  destruct (Vertices d !! k); constructor. apply same_vertex_refl.
Qed.

Lemma evolves_SetPass k d : evolves d (SetPass k d).2.
Proof.
  rewrite SetPass_eq. destruct (Vertices d !! k) as [v|] eqn:Hk; cbn;
    [|apply evolves_refl].
  destruct (HasFailed d); [apply evolves_refl|].
  by apply (evolves_store d k v), same_vertex_set.
Qed.

Lemma evolves_SetFail k d : evolves d (SetFail k d).2.
Proof.
  rewrite SetFail_eq. destruct (Vertices d !! k) as [v|] eqn:Hk; cbn;
    [|apply evolves_refl].
  destruct (HasFailed d); [apply evolves_refl|].
  assert (evolves d (store k (with_Vertex_Status Failed v) d)) as He
    by by apply (evolves_store d k v), same_vertex_set.
  destruct (CanFail v); [done|].
  eapply evolves_trans; [exact He|apply evolves_Dag_Status].
Qed.

Lemma evolves_run_attempt a d : evolves d (run_attempt a d).2.
Proof.
  unfold run_attempt. destruct (passes a);
    [apply evolves_SetPass|apply evolves_SetFail].
Qed.

Lemma evolves_Next d : evolves d (Next d).2.
Proof.
  rewrite Next_eq. destruct (HasFailed d); apply evolves_IsStarted.
Qed.

Lemma evolves_declare_success vs d : evolves d (declare_success vs d).
Proof. destruct vs; [apply evolves_Dag_Status|apply evolves_refl]. Qed.

Lemma evolves_step c c' : step c c' → evolves (dag_of c) (dag_of c').
Proof.
  destruct 1 as [d|d msg d1 _ HN|d vs d1 todo _ HN|d vs d1 _ HN
                 |d a todo d1 Ha|d a todo msg d1 Ha|d]; cbn;
    try apply evolves_refl.
  - replace d1 with (Next d).2 by by rewrite HN. apply evolves_Next.
  - eapply evolves_trans; [|apply evolves_declare_success].
    replace d1 with (Next d).2 by by rewrite HN. apply evolves_Next.
  - eapply evolves_trans; [|apply evolves_declare_success].
    replace d1 with (Next d).2 by by rewrite HN. apply evolves_Next.
  - replace d1 with (run_attempt a d).2 by by rewrite Ha.
    apply evolves_run_attempt.
  - replace d1 with (run_attempt a d).2 by by rewrite Ha.
    apply evolves_run_attempt.
Qed.

Lemma evolves_steps c c' : rtc step c c' → evolves (dag_of c) (dag_of c').
Proof.
  induction 1 as [|c1 c2 c3 H _ IH]; [apply evolves_refl|].
  eapply evolves_trans; [by apply evolves_step|done].
Qed.

(** ** Once the graph has failed *)

Lemma failed_SetPass k d : Dag_Status d = Failed → (SetPass k d).2 = d.
Proof.
  intros Hf%HasFailed_true. rewrite SetPass_eq, Hf.
  by destruct (Vertices d !! k).
Qed.

Lemma failed_SetFail k d : Dag_Status d = Failed → (SetFail k d).2 = d.
Proof.
  intros Hf%HasFailed_true. rewrite SetFail_eq, Hf.
  by destruct (Vertices d !! k).
Qed.

Lemma failed_step c c' :
  Dag_Status (dag_of c) = Failed → step c c' → dag_of c' = dag_of c.
Proof.
  intros Hf. destruct 1 as [d|d msg d1 Hu HN|d vs d1 todo Hu HN|d vs d1 Hu HN
                 |d a todo d1 Ha|d a todo msg d1 Ha|d]; cbn in *; try done.
  1-3: apply HasFinished_false in Hu; congruence.
  all: replace d1 with (run_attempt a d).2 by (by rewrite Ha);
    unfold run_attempt; destruct (passes a);
    [by apply failed_SetPass|by apply failed_SetFail].
Qed.

(** C4: while the graph status is Failed, [SetPass] and [SetFail] on any
    vertex leave the whole graph as it is, vertex statuses and graph status
    included, and so does every later step of the scheduler loop: after an
    escalated failure no vertex status changes for the rest of the run. *)
Theorem failed_graph_is_frozen d :
  Dag_Status d = Failed →
  (∀ k, (SetPass k d).2 = d ∧ (SetFail k d).2 = d) ∧
  (∀ c c', dag_of c = d → rtc step c c' → dag_of c' = d).
Proof.
  intros Hf. split.
  - intros k. split; [by apply failed_SetPass|by apply failed_SetFail].
  - intros c c' Hc Hsteps. revert Hc.
    induction Hsteps as [|c1 c2 c3 H _ IH]; [done|].
    intros Hc. apply IH. rewrite <- Hc. apply failed_step; [|done].
    by rewrite Hc.
Qed.

Lemma failed_graph_is_frozen_witness :
  Dag_Status main_dag_failed = Failed ∧
  (∀ k, (SetPass k main_dag_failed).2 = main_dag_failed ∧
        (SetFail k main_dag_failed).2 = main_dag_failed) ∧
  (∀ c c', dag_of c = main_dag_failed → rtc step c c' →
           dag_of c' = main_dag_failed).
Proof.
  split; [by vm_compute|].
  apply (failed_graph_is_frozen main_dag_failed). by vm_compute.
Defined.

(** ** The graph status along a run *)

Lemma run_attempt_status a d :
  Dag_Status (run_attempt a d).2 = Dag_Status d ∨
  (Dag_Status d ≠ Failed ∧ Dag_Status (run_attempt a d).2 = Failed).
Proof.
  unfold run_attempt. destruct (passes a).
  - left. rewrite SetPass_eq. destruct (Vertices d !! target a); [|done].
    cbn. by destruct (HasFailed d).
  - rewrite SetFail_eq. destruct (Vertices d !! target a) as [v|]; [|by left].
    cbn. destruct (HasFailed d) eqn:Hf; [by left|].
    destruct (CanFail v); [by left|].
    apply HasFailed_false in Hf. by right.
Qed.

Lemma schedule_nil todo : schedule [] todo → todo = [].
Proof. intros [Hlen _]. by apply nil_length_inv. Qed.

Lemma Next_Ok d vs d1 :
  Next d = (Ok vs, d1) →
  Dag_Status d ≠ Failed ∧ vs = ready d ∧ d1 = with_IsStarted true d.
Proof.
  rewrite Next_eq. destruct (HasFailed d) eqn:Hf; [done|].
  apply HasFailed_false in Hf. by intros [= <- <-].
Qed.

Lemma settled_step c c' :
  settled c → step c c' →
  settled c' ∧
  (Dag_Status (dag_of c) = Pending ∨
   Dag_Status (dag_of c') = Dag_Status (dag_of c)).
Proof.
  intros Hset.
  destruct 1 as [d|d msg d1 Hu HN|d vs d1 todo Hu HN Hpos Hsch|d vs d1 Hu HN
                 |d a todo d1 Ha|d a todo msg d1 Ha|d]; cbn in *.
  - by split; [|right].
  - apply HasFinished_false in Hu. by split; [|left].
  - apply HasFinished_false in Hu. split; [|by left].
    apply Next_Ok in HN as (_ & _ & ->).
    destruct vs; cbn; [intros _; by apply schedule_nil|congruence].
  - apply HasFinished_false in Hu. by split; [|left].
  - assert (Dag_Status d ≠ Passed) as Hnp by (intros Hp; by apply Hset in Hp).
    destruct (run_attempt_status a d) as [Hs|[Hnf Hs]];
      rewrite Ha in Hs; cbn in Hs.
    + split; [congruence|by right].
    + split; [congruence|]. left. by destruct (Dag_Status d).
  - split; [done|].
    assert (Dag_Status d ≠ Passed) as Hnp by (intros Hp; by apply Hset in Hp).
    destruct (run_attempt_status a d) as [Hs|[Hnf Hs]];
      rewrite Ha in Hs; cbn in Hs.
    + by right.
    + left. by destruct (Dag_Status d).
  - by split; [|right].
Qed.

Lemma settled_steps c c' : settled c → rtc step c c' → settled c'.
Proof.
  intros Hset Hsteps. induction Hsteps as [|c1 c2 c3 H _ IH]; [done|].
  apply IH. by apply (settled_step c1 c2).
Qed.

Lemma settled_status c c' :
  settled c → rtc step c c' →
  Dag_Status (dag_of c) = Pending ∨
  Dag_Status (dag_of c') = Dag_Status (dag_of c).
Proof.
  intros Hset Hsteps. induction Hsteps as [|c1 c2 c3 H _ IH]; [by right|].
  destruct (settled_step c1 c2 Hset H) as [Hset2 [Hp|Heq]]; [by left|].
  destruct (IH Hset2) as [Hp|Heq']; [left|right]; congruence.
Qed.

(** C5: take any execution of the scheduler loop and any two of its points,
    the first before the second.  Either the graph status is still Pending
    at the first, or it is the same at both: the status leaves Pending at
    most once, for Passed or for Failed, and then stays. *)
Theorem status_settles_once d c1 c2 :
  rtc step (AtLoop d) c1 → rtc step c1 c2 →
  Dag_Status (dag_of c1) = Pending ∨
  Dag_Status (dag_of c2) = Dag_Status (dag_of c1).
Proof.
  intros H1 H2. apply settled_status; [|done].
  by apply (settled_steps (AtLoop d)).
Qed.

(** Outside the loop the guard of [SetFail] alone does not protect a
    success: it tests for Failed only. *)

Lemma SetFail_after_Passed :
  Dag_Status (SetFail "B" (with_Dag_Status Passed main_dag)).2 = Failed.
Proof. by vm_compute. Qed.

(** A run of the graph that holds vertex B only: the wave has one attempt,
    which fails; B must not fail, so the graph fails and the loop returns. *)

Lemma single_run :
  rtc step (AtLoop single_dag) (InWave single_failed []) ∧
  rtc step (InWave single_failed []) (Returned single_failed).
Proof.
  split.
  - eapply rtc_l; [|apply rtc_once].
    + apply (step_dispatch single_dag [vertexB] (with_IsStarted true single_dag)
               [mkAttempt "B" false]);
        [by vm_compute|by vm_compute|by repeat constructor|].
      split; [done|]. intros a ->%list_elem_of_singleton. left.
    + apply step_attempt. by vm_compute.
  - eapply rtc_l; [apply step_barrier|].
    apply rtc_once, step_return. by vm_compute.
Qed.

Lemma status_settles_once_witness :
  Dag_Status single_failed = Failed ∧
  (Dag_Status (dag_of (InWave single_failed [])) = Pending ∨
   Dag_Status (dag_of (Returned single_failed)) =
   Dag_Status (dag_of (InWave single_failed []))).
Proof.
  split; [by vm_compute|].
  apply (status_settles_once single_dag
           (InWave single_failed []) (Returned single_failed)).
  - eapply rtc_l; [|apply rtc_once].
    + apply (step_dispatch single_dag [vertexB] (with_IsStarted true single_dag)
               [mkAttempt "B" false]);
        [by vm_compute|by vm_compute|by repeat constructor|].
      split; [done|]. intros a ->%list_elem_of_singleton. left.
    + apply step_attempt. by vm_compute.
  - eapply rtc_l; [apply step_barrier|].
    apply rtc_once, step_return. by vm_compute.
Defined.

(** ** Freezing the topology *)






(** ** Edges to ids that are not registered *)

Lemma IsCyclic_loop_ext rec rec' from cs :
  (∀ c, rec c = rec' c) → IsCyclic_loop rec from cs = IsCyclic_loop rec' from cs.
Proof.
  intros Hrec. induction cs as [|c cs IH]; cbn; [done|].
  by rewrite Hrec, IH.
Qed.

Lemma IsCyclic_ext fuel d d' from to :
  ConnectionsChildren d = ConnectionsChildren d' →
  IsCyclic fuel d from to = IsCyclic fuel d' from to.
Proof.
  intros Hc. revert to. induction fuel as [|n IH]; intros to; [done|].
  cbn. unfold children. rewrite Hc. by apply IsCyclic_loop_ext.
Qed.

Lemma elem_of_ready d v :
  v ∈ ready d ↔ CanExecute d v = true ∧ ∃ k, Vertices d !! k = Some v.
Proof.
  unfold ready. rewrite list_elem_of_filter, list_elem_of_fmap.
  split.
  - intros [Hce ([k v'] & -> & Hin)]. split; [done|].
    exists k. by apply elem_of_map_to_list.
  - intros [Hce [k Hk]]. split; [done|].
    exists (k, v). split; [done|]. by apply elem_of_map_to_list.
Qed.

(** C9: [AddEdge] does not look at the vertex table: its outcome and the
    adjacency it leaves are the same whatever vertices are registered.  A
    vertex one of whose listed parents is not registered is refused by
    [CanExecute], whatever its status and its other parents, and no vertex
    with its id is in the ready set of any graph a run of the scheduler
    reaches. *)
Theorem unregistered_parent_blocks d :
  (∀ fuel from to vs,
     AddEdge fuel from to (with_Vertices vs d) =
     ((AddEdge fuel from to d).1, with_Vertices vs (AddEdge fuel from to d).2)) ∧
  (∀ v p, p ∈ parents d (ID v) → Vertices d !! p = None →
     CanExecute d v = false ∧
     ∀ c v', rtc step (AtLoop d) c → ID v' = ID v → v' ∉ ready (dag_of c)).
Proof.
  split.
  - intros fuel from to vs. rewrite !AddEdge_eq.
    change (IsStarted (with_Vertices vs d)) with (IsStarted d).
    destruct (IsStarted d); [done|].
    rewrite (IsCyclic_ext fuel (with_Vertices vs d) d) by done.
    by destruct (IsCyclic fuel d from to) as [[]|].
  - intros v p Hp Hnone.
    assert (∀ d' v', evolves d d' → ID v' = ID v → CanExecute d' v' ≠ true)
      as Hblock.
    { intros d' v' Hev Hid Hce.
      apply CanExecute_true in Hce as [_ Hall].
      destruct (Hall p) as (pv & Hpv & _).
      - unfold parents. rewrite (ev_parents _ _ Hev), Hid. exact Hp.
      - pose proof (ev_vertices _ _ Hev p) as Hk.
        rewrite Hnone, Hpv in Hk. inversion Hk. }
    split.
    + apply not_true_is_false. apply Hblock; [apply evolves_refl|done].
    + intros c v' Hsteps Hid [Hce _]%elem_of_ready.
      by apply (Hblock (dag_of c) v'); [apply (evolves_steps (AtLoop d))|..].
Qed.

Lemma unregistered_parent_blocks_witness :
  calls [AddVertex vertexB; AddEdge 1 "X" "B"] NewDag = (Ok tt, dangling_dag) ∧
  CanExecute dangling_dag vertexB = false ∧
  ∀ c v', rtc step (AtLoop dangling_dag) c → ID v' = "B" →
          v' ∉ ready (dag_of c).
Proof.
  split; [by vm_compute|].
  apply (unregistered_parent_blocks dangling_dag) with (p := "X").
  - vm_compute. left.
  - by vm_compute.
Defined.

(** ** Termination of the scheduler loop *)

Lemma pending_keys_spec d k :
  k ∈ pending_keys d ↔
  ∃ v, Vertices d !! k = Some v ∧ Vertex_Status v = Pending.
Proof.
  unfold pending_keys. rewrite elem_of_dom. unfold is_Some.
  setoid_rewrite map_lookup_filter_Some. done.
Qed.

Lemma evolves_lookup d d' k v :
  evolves d d' → Vertices d !! k = Some v →
  ∃ v', Vertices d' !! k = Some v' ∧ same_vertex v v'.
Proof.
  intros Hev Hk. pose proof (ev_vertices _ _ Hev k) as H.
  rewrite Hk in H. inversion H; subst. eauto.
Qed.

Lemma evolves_lookup_back d d' k v' :
  evolves d d' → Vertices d' !! k = Some v' →
  ∃ v, Vertices d !! k = Some v ∧ same_vertex v v'.
Proof.
  intros Hev Hk. pose proof (ev_vertices _ _ Hev k) as H.
  rewrite Hk in H. inversion H; subst. eauto.
Qed.

Lemma evolves_keys_ok d d' : evolves d d' → keys_ok d → keys_ok d'.
Proof.
  intros Hev Hok k v' (v & Hv & Hid & _)%(evolves_lookup_back d); [|done].
  rewrite Hid. by apply Hok.
Qed.

Lemma evolves_loops_positive d d' :
  evolves d d' → loops_positive d → loops_positive d'.
Proof.
  intros Hev Hok k v' (v & Hv & _ & Hl & _)%(evolves_lookup_back d); [|done].
  rewrite Hl. by apply (Hok k).
Qed.

Lemma evolves_pending d d' :
  evolves d d' → pending_keys d' ⊆ pending_keys d.
Proof.
  intros Hev k (v' & Hk & Hs)%pending_keys_spec.
  apply pending_keys_spec.
  destruct (evolves_lookup_back d d' k v' Hev Hk) as (v & Hv & _ & _ & _ & Hp).
  exists v. split; [done|].
  destruct (decide (Vertex_Status v = Pending)); [done|]. by destruct Hp.
Qed.

Lemma evolves_size d d' :
  evolves d d' → size (pending_keys d') ≤ size (pending_keys d).
Proof. intros Hev. by apply subseteq_size, evolves_pending. Qed.

Lemma evolves_size_lt d d' k :
  evolves d d' → k ∈ pending_keys d → k ∉ pending_keys d' →
  size (pending_keys d') < size (pending_keys d).
Proof.
  intros Hev Hin Hout. apply subset_size. split.
  - by apply evolves_pending.
  - intros Hsub. by apply Hout, Hsub.
Qed.

Lemma run_attempt_Ok a d v :
  Vertices d !! target a = Some v → (run_attempt a d).1 = Ok tt.
Proof.
  intros Hk. unfold run_attempt. destruct (passes a).
  - by rewrite SetPass_eq, Hk.
  - by rewrite SetFail_eq, Hk.
Qed.

Lemma run_attempt_resolves a d :
  Dag_Status d ≠ Failed → target a ∉ pending_keys (run_attempt a d).2.
Proof.
  intros Hnf%HasFailed_false (v' & Hk & Hs)%pending_keys_spec.
  unfold run_attempt in Hk. destruct (passes a).
  - rewrite SetPass_eq in Hk.
    destruct (Vertices d !! target a) as [v|] eqn:Hv; cbn in Hk; [|congruence].
    rewrite Hnf in Hk. cbn in Hk. rewrite lookup_insert_eq in Hk.
    by simplify_eq.
  - rewrite SetFail_eq in Hk.
    destruct (Vertices d !! target a) as [v|] eqn:Hv; cbn in Hk; [|congruence].
    rewrite Hnf in Hk. destruct (CanFail v); cbn in Hk;
      rewrite lookup_insert_eq in Hk; by simplify_eq.
Qed.

Lemma ready_pending d v :
  keys_ok d → v ∈ ready d →
  Vertices d !! ID v = Some v ∧ Vertex_Status v = Pending.
Proof.
  intros Hok [Hce [k Hk]]%elem_of_ready. split.
  - by rewrite (Hok k v Hk).
  - by apply CanExecute_true in Hce as [? _].
Qed.

Lemma sn_Returned d : sn step (Returned d).
Proof. apply nf_sn. intros [c' H]. inversion H. Qed.

Lemma sn_Crashed msg d : sn step (Crashed msg d).
Proof. apply nf_sn. intros [c' H]. inversion H. Qed.

Lemma sn_finished d : HasFinished d = true → sn step (AtLoop d).
Proof.
  intros Hf. constructor. intros c' Hstep. cbn in Hstep.
  inversion Hstep; subst; try congruence. apply sn_Returned.
Qed.

(** The rest of a wave, given that the loop terminates from every graph
    with fewer than [n] Pending vertices. *)

Lemma sn_InWave n :
  (∀ d, keys_ok d → loops_positive d → size (pending_keys d) < n →
        sn step (AtLoop d)) →
  ∀ todo d, keys_ok d → loops_positive d → size (pending_keys d) < n →
            sn step (InWave d todo).
Proof.
  intros Hloop. induction todo as [|a todo IH]; intros d Hok Hpos Hsize;
    constructor; intros c' Hstep; cbn in Hstep; inversion Hstep; subst.
  - by apply Hloop.
  - assert (evolves d d1) as Hev.
    { replace d1 with (run_attempt a d).2 by (by rewrite H3).
      apply evolves_run_attempt. }
    apply IH; [by apply (evolves_keys_ok d)|by apply (evolves_loops_positive d)|].
    pose proof (evolves_size d d1 Hev). lia.
  - apply sn_Crashed.
Qed.

Lemma dispatched_cons_length v vs :
  (1 ≤ Loop v)%Z → 0 < length (dispatched (v :: vs)).
Proof.
  intros Hl. unfold dispatched. cbn. rewrite length_app, length_replicate. lia.
Qed.

Lemma sn_AtLoop n d :
  keys_ok d → loops_positive d → size (pending_keys d) < n →
  sn step (AtLoop d).
Proof.
  revert d. induction n as [|n IH]; intros d Hok Hpos Hsize; [lia|].
  constructor. intros c' Hstep. cbn in Hstep.
  inversion Hstep as [? Hf|? msg d1 Hu HN|? vs d1 todo Hu HN Hnn Hsch
                      |? vs d1 Hu HN| | |]; subst.
  - apply sn_Returned.
  - apply sn_Crashed.
  - apply Next_Ok in HN as (Hnf & -> & ->).
    destruct (ready d) as [|v vs] eqn:Hr.
    + apply schedule_nil in Hsch as ->. cbn.
      constructor. intros c2 Hstep2. cbn in Hstep2.
      inversion Hstep2; subst. by apply sn_finished.
    + cbn [declare_success].
      assert (v ∈ ready d) as Hv by (rewrite Hr; left).
      destruct (ready_pending d v Hok Hv) as [Hk Hs].
      destruct Hsch as [Hlen Htargets].
      pose proof (dispatched_cons_length v vs (Hpos _ _ Hk)) as Hlen'.
      rewrite <- Hlen in Hlen'.
      destruct todo as [|a todo]; [cbn in Hlen'; lia|].
      assert (target a ∈ ID <$> v :: vs) as (w & Hid & Hw)%list_elem_of_fmap
        by (apply Htargets; left).
      rewrite <- Hr in Hw.
      destruct (ready_pending d w Hok Hw) as [Hkw Hsw].
      set (d1 := with_IsStarted true d).
      assert (evolves d d1) as Hev1 by apply evolves_IsStarted.
      constructor. intros c2 Hstep2. cbn in Hstep2.
      inversion Hstep2 as [| | | |? ? ? d2 Ha|? ? ? msg d2 Ha|]; subst;
        [|apply sn_Crashed].
      assert (evolves d1 d2) as Hev2.
      { replace d2 with (run_attempt a d1).2 by (by rewrite Ha).
        apply evolves_run_attempt. }
      assert (evolves d d2) as Hev by by eapply evolves_trans.
      apply (sn_InWave n).
      * intros d' ? ? ?. by apply IH.
      * by apply (evolves_keys_ok d).
      * by apply (evolves_loops_positive d).
      * assert (size (pending_keys d2) < size (pending_keys d)); [|lia].
        apply (evolves_size_lt d d2 (target a) Hev).
        -- apply pending_keys_spec. exists w. by rewrite Hid.
        -- replace d2 with (run_attempt a d1).2 by (by rewrite Ha).
           by apply run_attempt_resolves.
  - apply sn_Crashed.
Qed.

(** Every execution of the loop is finite when each vertex is registered
    under its id and has at least one repetition. *)

Lemma ExecuteVertices_terminates d :
  keys_ok d → loops_positive d → sn step (AtLoop d).
Proof.
  intros Hok Hpos. by apply (sn_AtLoop (S (size (pending_keys d)))); [..|lia].
Qed.

(** ** The success rule *)



(** No infinite ascent along parent edges either. *)



(** On an acyclic graph whose edges join registered vertices, some Pending
    vertex is ready as long as one vertex is Pending. *)



(** *** Runs in which no vertex that must not fail reports a failure *)

Lemma evolves_registered d d' k :
  evolves d d' → is_Some (Vertices d' !! k) ↔ is_Some (Vertices d !! k).
Proof.
  intros Hev. split.
  - intros [v' Hv']. destruct (evolves_lookup_back d d' k v') as (v & ? & _); eauto.
  - intros [v Hv]. destruct (evolves_lookup d d' k v) as (v' & ? & _); eauto.
Qed.



Lemma Next_Panic d msg d1 : Next d = (Panic msg, d1) → Dag_Status d = Failed.
Proof.
  rewrite Next_eq. destruct (HasFailed d) eqn:Hf; [|done].
  intros _. by apply HasFailed_true.
Qed.

(** *** Waves that fit in the counter of the wait group *)

Lemma evolves_loops_nonneg d d' :
  evolves d d' → loops_nonneg d → loops_nonneg d'.
Proof.
  intros Hev Hok k v' (v & Hv & _ & Hl & _)%(evolves_lookup_back d); [|done].
  rewrite Hl. by apply (Hok k).
Qed.

Lemma loops_positive_nonneg d : loops_positive d → loops_nonneg d.
Proof. intros H k v Hk. specialize (H k v Hk). lia. Qed.

Lemma sum_Z_cons y l : sum_Z (y :: l) = (y + sum_Z l)%Z.
Proof. done. Qed.

Lemma sum_Z_nonneg l : Forall (λ y, 0 ≤ y)%Z l → (0 ≤ sum_Z l)%Z.
Proof.
  induction 1 as [|y l Hy Hl IH]; [done|]. rewrite sum_Z_cons. lia.
Qed.

Lemma sum_Z_elem l x : Forall (λ y, 0 ≤ y)%Z l → x ∈ l → (x ≤ sum_Z l)%Z.
Proof.
  induction 1 as [|y l Hy Hl IH]; [by intros ?%elem_of_nil|].
  pose proof (sum_Z_nonneg l Hl) as Hs. rewrite sum_Z_cons.
  intros [->|Hx]%elem_of_cons; [lia|]. specialize (IH Hx). lia.
Qed.

Lemma sum_Z_filter (P : Vertex → Prop) `{!∀ v, Decision (P v)} l :
  Forall (λ v, 0 ≤ Loop v)%Z l →
  (0 ≤ sum_Z (Loop <$> filter P l) ≤ sum_Z (Loop <$> l))%Z.
Proof.
  induction 1 as [|v l Hv Hl IH]; [done|].
  rewrite filter_cons. destruct (decide (P v));
    rewrite ?fmap_cons, ?sum_Z_cons; lia.
Qed.

Lemma loop_total_values d :
  loop_total d = sum_Z (Loop <$> (map_to_list (Vertices d)).*2).
Proof.
  unfold loop_total. rewrite map_to_list_fmap. f_equal.
  induction (map_to_list (Vertices d)) as [|[k v] l IH]; [done|].
  cbn. by rewrite IH.
Qed.

Lemma registered_nonneg d :
  loops_nonneg d → Forall (λ v, 0 ≤ Loop v)%Z (map_to_list (Vertices d)).*2.
Proof.
  intros Hnn. apply Forall_forall. intros v ([k v'] & -> & Hv)%list_elem_of_fmap.
  apply elem_of_map_to_list in Hv. by apply (Hnn k).
Qed.

Lemma dispatched_length vs :
  Forall (λ v, 0 ≤ Loop v)%Z vs →
  Z.of_nat (length (dispatched vs)) = sum_Z (Loop <$> vs).
Proof.
  induction 1 as [|v vs Hv Hvs IH]; [done|].
  rewrite fmap_cons, sum_Z_cons, <- IH. unfold dispatched. cbn.
  rewrite length_app, length_replicate. lia.
Qed.

Lemma counted_in_range v : (0 ≤ Loop v < 2 ^ 31)%Z → counted v.
Proof.
  intros Hr. unfold counted, int32. rewrite Z.mod_small by lia. lia.
Qed.


(** On a graph whose repetition counts are not negative and together stay
    below 2^31, every wave fits. *)

Lemma wave_fits_ready d :
  loops_nonneg d → loops_fit d → wave_fits (ready d).
Proof.
  intros Hnn Hfit. unfold loops_fit in Hfit. rewrite loop_total_values in Hfit.
  pose proof (registered_nonneg d Hnn) as Hall.
  pose proof (sum_Z_filter (λ v, CanExecute d v = true) _ Hall) as Hsum.
  fold (ready d) in Hsum.
  assert (Forall (λ v, 0 ≤ Loop v)%Z (ready d)) as Hr.
  { apply Forall_forall. intros v [_ Hv]%list_elem_of_filter.
    rewrite Forall_forall in Hall. by apply Hall. }
  split.
  - apply Forall_forall. intros v Hv. apply counted_in_range.
    assert (Loop v ≤ sum_Z (Loop <$> ready d))%Z.
    { apply sum_Z_elem; [|by apply list_elem_of_fmap_2].
      rewrite Forall_fmap. exact Hr. }
    rewrite Forall_forall in Hr. specialize (Hr v Hv). cbn in Hr. lia.
  - rewrite dispatched_length by done. lia.
Qed.

Lemma evolves_loops_fit d d' : evolves d d' → loops_fit d → loops_fit d'.
Proof.
  intros Hev. unfold loops_fit, loop_total.
  replace (Loop <$> Vertices d') with (Loop <$> Vertices d); [done|].
  apply map_eq. intros k. rewrite !lookup_fmap.
  destruct (ev_vertices _ _ Hev k) as [v v' (_ & Hl & _)|]; cbn; congruence.
Qed.

Lemma ready_registered d a vs :
  keys_ok d → vs = ready d → target a ∈ ID <$> vs →
  ∃ w, Vertices d !! target a = Some w ∧ Vertex_Status w = Pending.
Proof.
  intros Hok -> (w & -> & Hw)%list_elem_of_fmap.
  exists w. by apply ready_pending.
Qed.




Lemma dispatched_targets vs k : k ∈ dispatched vs → k ∈ ID <$> vs.
Proof.
  unfold dispatched. intros (v & Hk & Hv)%list_elem_of_bind.
  apply elem_of_replicate in Hk as [-> _].
  apply list_elem_of_fmap. by exists v.
Qed.

Lemma schedule_all_pass vs : schedule vs (all_pass vs).
Proof.
  split.
  - unfold all_pass. by rewrite length_fmap.
  - intros a (k & -> & Hk)%list_elem_of_fmap. cbn. by apply dispatched_targets.
Qed.

(** A run that has not returned can go on. *)






(** *** A vertex without repetitions *)

Lemma table_Forall (m : gmap string (list string)) (P : string → string → Prop) :
  map_Forall (λ x ys, Forall (P x) ys) m →
  ∀ x y, y ∈ default [] (m !! x) → P x y.
Proof.
  intros Hall x y. destruct (m !! x) as [ys|] eqn:Hx; cbn.
  - intros Hy. specialize (Hall x ys Hx). cbn in Hall.
    rewrite Forall_forall in Hall. by apply Hall.
  - by intros ?%elem_of_nil.
Qed.

Lemma symmetric_check d :
  map_Forall (λ y ps, Forall (λ x, y ∈ children d x) ps) (ConnectionsParents d) →
  map_Forall (λ x cs, Forall (λ y, x ∈ parents d y) cs) (ConnectionsChildren d) →
  adjacency_symmetric d.
Proof.
  intros Hp Hc x y. split.
  - apply (table_Forall _ (λ y x, y ∈ children d x) Hp).
  - apply (table_Forall _ (λ x y, x ∈ parents d y) Hc).
Qed.

Ltac table_check :=
  apply map_Forall_to_list; vm_compute map_to_list;
  repeat first [apply Forall_nil_2 | apply Forall_cons_2]; cbn [uncurry].

Lemma idle_dispatch b :
  bstep (AtLoop (with_IsStarted b idle_dag))
        (InWave (with_IsStarted true idle_dag) []).
Proof.
  split; [|by intros a ?%elem_of_nil].
  apply (step_dispatch _ [idle_vertex] (with_IsStarted true idle_dag) []).
  - by destruct b; vm_compute.
  - by destruct b; vm_compute.
  - by repeat constructor.
  - split; [done|]. by intros a ?%elem_of_nil.
Qed.

Lemma idle_barrier :
  bstep (InWave (with_IsStarted true idle_dag) [])
        (AtLoop (with_IsStarted true idle_dag)).
Proof. split; [apply step_barrier|done]. Qed.

Lemma idle_wave :
  tc bstep (AtLoop (with_IsStarted true idle_dag))
           (AtLoop (with_IsStarted true idle_dag)).
Proof.
  eapply tc_l; [apply (idle_dispatch true)|apply tc_once, idle_barrier].
Qed.

(** The graph with the single vertex A, Pending, with [Loop] zero and no
    edge: its run does not terminate.  Each wave finds A ready, starts no
    goroutine and leaves A Pending. *)

Lemma idle_run_never_returns :
  Dag_Status idle_dag = Pending ∧ keys_ok idle_dag ∧
  adjacency_symmetric idle_dag ∧ acyclic idle_dag ∧
  edges_registered idle_dag ∧
  ¬ sn bstep (AtLoop idle_dag) ∧
  (∀ c, rtc step (AtLoop idle_dag) c →
        red step c ∧ Dag_Status (dag_of c) = Pending).
Proof.
  split; [done|]. split; [|split; [|split; [|split; [|split]]]].
  - unfold keys_ok. table_check. done.
  - apply symmetric_check; table_check.
  - apply (ranked_acyclic _ (λ _, 0)), edge_Forall. table_check.
  - unfold edges_registered. apply edge_Forall. table_check.
  - intros Hsn.
    apply (sn_no_cycle bstep (AtLoop (with_IsStarted true idle_dag))).
    + apply (sn_step_rtc (AtLoop idle_dag)); [done|].
      eapply rtc_l; [apply (idle_dispatch false)|apply rtc_once, idle_barrier].
    + apply idle_wave.
  - assert (∀ c, rtc step (AtLoop idle_dag) c →
       ∃ b, (c = AtLoop (with_IsStarted b idle_dag) ∨
             c = InWave (with_IsStarted true idle_dag) [])) as Hreach.
    { apply (rtc_ind_r _ (AtLoop idle_dag)).
      - exists false. by left.
      - intros c1 c2 _ Hstep [b [-> | ->]].
        + exists true. right.
          inversion Hstep as [? Hf|? msg d1 Hu HN|? vs d1 todo Hu HN Hnn Hsch
                              |? vs d1 Hu HN Hneg| | |]; subst.
          * by destruct b.
          * apply Next_Panic in HN. by destruct b.
          * apply Next_Ok in HN as (_ & -> & ->).
            replace (ready (with_IsStarted b idle_dag)) with [idle_vertex] in *
              by (by destruct b; vm_compute).
            destruct Hsch as [Hlen _]. apply nil_length_inv in Hlen as ->.
            by destruct b.
          * apply Next_Ok in HN as (_ & -> & ->).
            replace (ready (with_IsStarted b idle_dag)) with [idle_vertex] in *
              by (by destruct b; vm_compute).
            destruct Hneg. split; [by repeat constructor|by vm_compute].
        + exists true. left. by inversion Hstep; subst. }
    intros c Hc. destruct (Hreach c Hc) as [b [-> | ->]].
    + split; [|by destruct b].
      exists (InWave (with_IsStarted true idle_dag) []). apply idle_dispatch.
    + split; [|done]. exists (AtLoop (with_IsStarted true idle_dag)).
      apply step_barrier.
Qed.

(** *** A vertex with 2^31 repetitions *)




(** ** Graphs built through the construction calls *)

Lemma symmetric_link from to d :
  adjacency_symmetric d → adjacency_symmetric (link from to d).
Proof.
  intros Hsym x y. rewrite parents_link, children_link.
  destruct (decide (y = to)) as [->|Hy], (decide (x = from)) as [->|Hx];
    rewrite ?elem_of_app, ?list_elem_of_singleton, (Hsym _ _).
  - tauto.
  - split; [intros [H| ->]; done|tauto].
  - split; [tauto|intros [H| ->]; done].
  - done.
Qed.

(** A built graph has not started, its status is Pending, its vertices are
    registered under their ids and its adjacency tables agree. *)

Lemma built_invariants d :
  built d →
  IsStarted d = false ∧ Dag_Status d = Pending ∧ keys_ok d ∧
  adjacency_symmetric d.
Proof.
  induction 1 as [|d v d' _ IH Hadd|d fuel from to d' _ IH Hadd].
  - split; [done|split; [done|split]].
    + intros k v. cbn. by rewrite lookup_empty.
    + intros x y. unfold parents, children. cbn. rewrite !lookup_empty. cbn.
      by rewrite !elem_of_nil.
  - destruct IH as (Hs & Hp & Hok & Hsym).
    rewrite AddVertex_eq, Hs in Hadd. injection Hadd as <-.
    split; [done|split; [done|split; [|exact Hsym]]].
    intros k w. cbn. destruct (decide (k = ID v)) as [->|Hne].
    + rewrite lookup_insert_eq. by intros [= <-].
    + rewrite lookup_insert_ne by done. apply Hok.
  - destruct IH as (Hs & Hp & Hok & Hsym).
    rewrite AddEdge_eq, Hs in Hadd.
    destruct (IsCyclic fuel d from to) as [[]|]; try done.
    injection Hadd as <-. split; [done|split; [done|split; [done|]]].
    by apply symmetric_link.
Qed.

(** * Further properties of the code *)

(** ** Registering vertices *)

(** [AddVertex] on a graph that has not started returns; the vertex is then
    found under its id, every other entry of the table, the adjacency, the
    status and the start flag are as before, and a vertex registered under
    an id already in use replaces the earlier one without a trace. *)
Theorem AddVertex_registers d v :
  IsStarted d = false →
  ∃ d', AddVertex v d = (Ok tt, d') ∧
    Vertices d' !! ID v = Some v ∧
    (∀ k, k ≠ ID v → Vertices d' !! k = Vertices d !! k) ∧
    ConnectionsParents d' = ConnectionsParents d ∧
    ConnectionsChildren d' = ConnectionsChildren d ∧
    Dag_Status d' = Dag_Status d ∧ IsStarted d' = false ∧
    (∀ w, ID w = ID v → AddVertex w d' = AddVertex w d).
Proof.
  intros Hs. exists (store (ID v) v d). rewrite AddVertex_eq, Hs.
  split; [done|]. split; [apply lookup_insert_eq|].
  split; [intros k Hk; by apply lookup_insert_ne|].
  do 4 (split; [done|]).
  intros w Hw. rewrite !AddVertex_eq.
  change (IsStarted (store (ID v) v d)) with (IsStarted d). rewrite Hs.
  f_equal. unfold store, with_Vertices. cbn. rewrite Hw. f_equal.
  apply insert_insert_eq.
Qed.

Lemma AddVertex_registers_witness :
  ∃ d', AddVertex idle_vertex main_dag = (Ok tt, d') ∧
    Vertices d' !! "A" = Some idle_vertex ∧
    Vertices d' !! "B" = Some vertexB.
Proof.
  destruct (AddVertex_registers main_dag idle_vertex) as (d' & Hd' & HA & Hrest & _);
    [by vm_compute|].
  exists d'. split; [done|]. split; [done|].
  rewrite (Hrest "B") by done. by vm_compute.
Defined.

(** An edge may be declared before or after the vertices it joins: when
    [AddEdge] returns on a graph that has not started, [AddVertex] followed
    by that [AddEdge] and that [AddEdge] followed by [AddVertex] both return
    and leave the same graph. *)
Theorem AddVertex_AddEdge_commute fuel v from to d d1 :
  IsStarted d = false →
  AddEdge fuel from to d = (Ok tt, d1) →
  calls [AddVertex v; AddEdge fuel from to] d = (Ok tt, store (ID v) v d1) ∧
  calls [AddEdge fuel from to; AddVertex v] d = (Ok tt, store (ID v) v d1).
Proof.
  intros Hs Hadd. cbn. unfold mbind, M_bind, mret, M_ret.
  rewrite Hadd, !AddVertex_eq, Hs.
  rewrite AddEdge_eq in Hadd. rewrite Hs in Hadd.
  destruct (IsCyclic fuel d from to) as [[]|] eqn:Hc; try done.
  injection Hadd as <-.
  change (IsStarted (link from to d)) with (IsStarted d). rewrite Hs.
  split; [|done].
  rewrite AddEdge_eq.
  change (IsStarted (store (ID v) v d)) with (IsStarted d). rewrite Hs.
  by rewrite (IsCyclic_ext fuel (store (ID v) v d) d), Hc.
Qed.

Lemma AddVertex_AddEdge_commute_witness :
  calls [AddVertex vertexB; AddEdge 1 "X" "B"] NewDag =
  calls [AddEdge 1 "X" "B"; AddVertex vertexB] NewDag.
Proof.
  destruct (AddVertex_AddEdge_commute 1 vertexB "X" "B" NewDag (link "X" "B" NewDag))
    as [H1 H2]; [done|by vm_compute|].
  by rewrite H1, H2.
Defined.

(** ** Repeated edges *)

(** [AddEdge] does not look for an edge that is already there: on an acyclic
    graph that has not started, an accepted edge between two different ids
    is accepted again, and is then listed twice in both tables. *)
Theorem AddEdge_records_duplicates d from to :
  IsStarted d = false → acyclic d → from ≠ to → ¬ tc (edge d) to from →
  ∃ n, ∀ fuel, n ≤ fuel →
    calls [AddEdge fuel from to; AddEdge fuel from to] d =
      (Ok tt, link from to (link from to d)) ∧
    parents (link from to (link from to d)) to = parents d to ++ [from; from] ∧
    children (link from to (link from to d)) from =
      children d from ++ [to; to].
Proof.
  intros Hs Hac Hne Hntc.
  assert (¬ rtc (edge d) to from) as Hnr
    by (intros [->|?]%rtc_tc; done).
  assert (acyclic (link from to d)) as Hac1 by by apply acyclic_link.
  assert (¬ tc (edge (link from to d)) to from) as Hntc1
    by (intros [?|[? _]]%tc_link; done).
  destruct (AddEdge_decides d from to Hs Hac) as [n1 Hn1].
  destruct (AddEdge_decides (link from to d) from to Hs Hac1) as [n2 Hn2].
  exists (n1 `max` n2). intros fuel Hle. split; [|split].
  - cbn. unfold mbind, M_bind, mret, M_ret.
    destruct (Hn1 fuel) as [_ H1]; [lia|]. rewrite (H1 Hntc).
    destruct (Hn2 fuel) as [_ H2]; [lia|]. by rewrite (H2 Hntc1).
  - rewrite !parents_link. rewrite !decide_True by done.
    by rewrite <- app_assoc.
  - rewrite !children_link. rewrite !decide_True by done.
    by rewrite <- app_assoc.
Qed.

Lemma AddEdge_records_duplicates_witness :
  ∃ n, ∀ fuel, n ≤ fuel →
    calls [AddEdge fuel "A" "B"; AddEdge fuel "A" "B"] NewDag =
      (Ok tt, link "A" "B" (link "A" "B" NewDag)) ∧
    parents (link "A" "B" (link "A" "B" NewDag)) "B" =
      parents NewDag "B" ++ ["A"; "A"] ∧
    children (link "A" "B" (link "A" "B" NewDag)) "A" =
      children NewDag "A" ++ ["B"; "B"].
Proof.
  apply (AddEdge_records_duplicates NewDag "A" "B"); [done| |done|].
  - apply (ranked_acyclic _ (λ _, 0)), edge_Forall. table_check.
  - intros (c & Hc & _)%tc_edge_inv. vm_compute in Hc. by apply elem_of_nil in Hc.
Defined.

(** ** The answers of [IsCyclic] on any adjacency *)

Lemma IsCyclic_false_child n d from x y :
  IsCyclic n d from x = Some false → edge d x y →
  ∃ m, m < n ∧ IsCyclic m d from y = Some false.
Proof.
  destruct n as [|m]; [done|]. cbn. intros Hl Hy.
  exists m. split; [lia|]. by apply (IsCyclic_loop_false _ _ _ Hl y).
Qed.

Lemma IsCyclic_false_tc n d from x y :
  IsCyclic n d from x = Some false → tc (edge d) x y →
  ∃ m, m < n ∧ IsCyclic m d from y = Some false.
Proof.
  intros Hx Htc. revert n Hx. induction Htc as [x y H|x y z H _ IH]; intros n Hx.
  - by apply (IsCyclic_false_child n d from x).
  - destruct (IsCyclic_false_child n d from x y Hx H) as (m & Hm & Hy).
    destruct (IH m Hy) as (m' & Hm' & Hz). exists m'. split; [lia|done].
Qed.

Lemma IsCyclic_false_no_cycle n d from x :
  IsCyclic n d from x = Some false → ¬ tc (edge d) x x.
Proof.
  revert x. induction (lt_wf n) as [n _ IH]. intros x Hx Htc.
  destruct (IsCyclic_false_tc n d from x x Hx Htc) as (m & Hm & Hx').
  by apply (IH m Hm x).
Qed.

(** Whatever the adjacency, cyclic or not: an answer [true] of [IsCyclic]
    is a path of one or more child edges from [to] to [from]; an answer
    [false] means that there is no such path and that no cycle can be
    reached from [to].  So when [to] reaches a cycle and [from] is not among
    its descendants, [IsCyclic] does not return, whatever the recursion
    depth allowed. *)
Theorem IsCyclic_answers fuel d from to :
  (IsCyclic fuel d from to = Some true → tc (edge d) to from) ∧
  (IsCyclic fuel d from to = Some false →
     ¬ tc (edge d) to from ∧ ∀ x, rtc (edge d) to x → ¬ tc (edge d) x x) ∧
  (∀ x, rtc (edge d) to x → tc (edge d) x x → ¬ tc (edge d) to from →
     IsCyclic fuel d from to = None).
Proof.
  assert (IsCyclic fuel d from to = Some false →
          ∀ x, rtc (edge d) to x → ¬ tc (edge d) x x) as Hfalse.
  { intros Hf x [<-|Htc]%rtc_tc.
    - by apply (IsCyclic_false_no_cycle fuel d from).
    - destruct (IsCyclic_false_tc fuel d from to x Hf Htc) as (m & _ & Hx).
      by apply (IsCyclic_false_no_cycle m d from). }
  split; [apply IsCyclic_true|split].
  - intros Hf. split; [by apply (IsCyclic_false fuel)|by apply Hfalse].
  - intros x Hx Hcyc Hnot.
    destruct (IsCyclic fuel d from to) as [[]|] eqn:Hr; [|exfalso|done].
    + destruct Hnot. by apply (IsCyclic_true fuel).
    + by apply (Hfalse eq_refl x).
Qed.

Lemma IsCyclic_answers_witness :
  IsCyclic 1000 self_loop_dag "B" "A" = None.
Proof.
  destruct (IsCyclic_answers 1000 self_loop_dag "B" "A") as (_ & _ & H).
  apply (H "A"); [done| |].
  - apply tc_once. unfold edge. vm_compute. left.
  - intros Hb%tc_edge_all_children. vm_compute in Hb.
    apply list_elem_of_singleton in Hb. discriminate Hb.
Defined.

(** ** Graphs built through the construction calls: cycles *)

Lemma built_vertex_calls vs d d' :
  built d → calls (AddVertex <$> vs) d = (Ok tt, d') → built d'.
Proof.
  revert d. induction vs as [|v vs IH]; intros d Hb; cbn.
  - unfold mret, M_ret. by intros [= <-].
  - unfold mbind, M_bind.
    destruct (AddVertex v d) as [[[]| |] d1] eqn:Hv; try done.
    apply IH. by apply (built_AddVertex d v).
Qed.

Lemma built_edge_calls fuel es d d' :
  built d → calls (edge_calls fuel es) d = (Ok tt, d') → built d'.
Proof.
  revert d. induction es as [|[f t] es IH]; intros d Hb; cbn.
  - unfold mret, M_ret. by intros [= <-].
  - unfold mbind, M_bind.
    destruct (AddEdge fuel f t d) as [[[]| |] d1] eqn:He; try done.
    apply IH. by apply (built_AddEdge d fuel f t).
Qed.

Lemma main_dag_built : built main_dag.
Proof.
  apply (built_edge_calls 5
    [("A", "B"); ("A", "C"); ("B", "D"); ("C", "D"); ("D", "E");
     ("A", "D"); ("A", "E"); ("C", "E")]
    (calls main_vertices NewDag).2); [|by vm_compute].
  apply (built_vertex_calls [vertexA; vertexB; vertexC; vertexD; vertexE] NewDag);
    [apply built_NewDag|by vm_compute].
Qed.

Lemma built_no_self_loop_acyclic d :
  built d → (∀ x, ¬ edge d x x) → acyclic d.
Proof.
  induction 1 as [|d v d' Hb IH Hadd|d fuel from to d' Hb IH Hadd]; intros Hno.
  - intros x (c & Hc & _)%tc_edge_inv. vm_compute in Hc.
    by apply elem_of_nil in Hc.
  - destruct (built_invariants d Hb) as (Hs & _).
    rewrite AddVertex_eq, Hs in Hadd. injection Hadd as <-.
    intros x Hx. apply (IH Hno x).
    eapply (tc_congruence id); [|exact Hx]. done.
  - destruct (built_invariants d Hb) as (Hs & _).
    assert (from ≠ to) as Hne.
    { intros ->. rewrite AddEdge_eq, Hs in Hadd.
      destruct (IsCyclic fuel d to to) as [[]|]; try done.
      injection Hadd as <-. apply (Hno to), edge_link. by right. }
    apply (AddEdge_keeps_acyclic fuel d from to d'); [done| |done].
    apply IH. intros x Hx. rewrite AddEdge_eq, Hs in Hadd.
    destruct (IsCyclic fuel d from to) as [[]|]; try done.
    injection Hadd as <-. apply (Hno x), edge_link. by left.
Qed.

(** Every graph obtained from [NewDag] by calls of [AddVertex] and [AddEdge]
    that return has not started, has the status Pending, holds each vertex
    under its own id and lists the same edges in its parent and child
    tables; and it has a cycle only if some id is its own child, so that
    edges from an id to itself are the only way to build a cyclic graph. *)
Theorem built_graph_invariants d :
  built d →
  IsStarted d = false ∧ Dag_Status d = Pending ∧ keys_ok d ∧
  adjacency_symmetric d ∧
  (acyclic d ↔ ∀ x, ¬ edge d x x).
Proof.
  intros Hb. destruct (built_invariants d Hb) as (Hs & Hp & Hok & Hsym).
  do 4 (split; [done|]). split.
  - intros Hac x Hx. by apply (Hac x), tc_once.
  - by apply built_no_self_loop_acyclic.
Qed.

Lemma built_graph_invariants_witness :
  IsStarted main_dag = false ∧ Dag_Status main_dag = Pending ∧
  keys_ok main_dag ∧ adjacency_symmetric main_dag ∧
  (acyclic main_dag ↔ ∀ x, ¬ edge main_dag x x).
Proof.
  apply (built_graph_invariants main_dag).
  apply (built_edge_calls 5
    [("A", "B"); ("A", "C"); ("B", "D"); ("C", "D"); ("D", "E");
     ("A", "D"); ("A", "E"); ("C", "E")]
    (calls main_vertices NewDag).2); [|by vm_compute].
  apply (built_vertex_calls [vertexA; vertexB; vertexC; vertexD; vertexE] NewDag);
    [apply built_NewDag|by vm_compute].
Defined.

(** ** Recording a pass, and several attempts on one vertex *)

(** [SetPass] on a registered vertex returns and never changes the graph
    status, the adjacency or the start flag.  While the graph has not failed
    it sets the status of the vertex to Passed, whatever it was, keeps its
    id, repetition count and failure policy, and leaves the other vertices
    alone; once the graph has failed it changes nothing. *)
Theorem SetPass_effect d k v :
  Vertices d !! k = Some v →
  ∃ d', SetPass k d = (Ok tt, d') ∧
    Dag_Status d' = Dag_Status d ∧
    ConnectionsParents d' = ConnectionsParents d ∧
    ConnectionsChildren d' = ConnectionsChildren d ∧
    IsStarted d' = IsStarted d ∧
    (Dag_Status d ≠ Failed →
       Vertices d' =
         <[k := mkVertex (ID v) Passed (Loop v) (CanFail v)]> (Vertices d) ∧
       ∃ v', Vertices d' !! k = Some v' ∧ Vertex_Status v' = Passed) ∧
    (Dag_Status d = Failed → d' = d).
Proof.
  intros Hk. rewrite SetPass_eq, Hk. eexists. split; [done|].
  destruct (HasFailed d) eqn:Hf.
  - apply HasFailed_true in Hf. by repeat split.
  - apply HasFailed_false in Hf. do 4 (split; [done|]). split; [|done].
    intros _. split; [done|]. eexists. split; [apply lookup_insert_eq|done].
Qed.

Lemma SetPass_effect_witness :
  ∃ d' v', SetPass "B" main_dag = (Ok tt, d') ∧
    Dag_Status d' = Pending ∧
    Vertices d' !! "B" = Some v' ∧ Vertex_Status v' = Passed.
Proof.
  destruct (SetPass_effect main_dag "B" vertexB) as (d' & Hd' & Hs & _ & _ & _ & Hv & _);
    [by vm_compute|].
  destruct Hv as (_ & v' & Hv' & Hs'); [by vm_compute|].
  exists d', v'. split; [done|]. split; [by rewrite Hs|]. by split.
Defined.

Lemma run_wave_failed todo d : Dag_Status d = Failed → run_wave todo d = d.
Proof.
  intros Hf. induction todo as [|a todo IH]; [done|].
  change (run_wave (a :: todo) d) with (run_wave todo (run_attempt a d).2).
  replace (run_attempt a d).2 with d; [done|].
  unfold run_attempt. destruct (passes a);
    [by rewrite failed_SetPass|by rewrite failed_SetFail].
Qed.

Lemma wave_steps todo d :
  (∀ a, a ∈ todo → is_Some (Vertices d !! target a)) →
  rtc step (InWave d todo) (InWave (run_wave todo d) []).
Proof.
  revert d. induction todo as [|a todo IH]; intros d Hreg; [done|].
  destruct (Hreg a) as [v Hv]; [left|].
  pose proof (run_attempt_Ok a d v Hv) as Hok.
  destruct (run_attempt a d) as [r d1] eqn:Ha. cbn in Hok. subst r.
  eapply rtc_l; [by apply step_attempt|].
  change (run_wave (a :: todo) d) with (run_wave todo (run_attempt a d).2).
  rewrite Ha. cbn [snd].
  apply IH. intros a' Ha'.
  apply (evolves_registered d d1).
  - replace d1 with (run_attempt a d).2 by (by rewrite Ha).
    apply evolves_run_attempt.
  - apply Hreg. by right.
Qed.

Lemma attempt_on_vertex a d k s v :
  Vertices d !! k = Some (with_Vertex_Status s v) → target a = k →
  Dag_Status d ≠ Failed →
  Vertices (run_attempt a d).2 !! k = Some (with_Vertex_Status (verdict a) v) ∧
  Dag_Status (run_attempt a d).2 =
    (if passes a then Dag_Status d
     else if CanFail v then Dag_Status d else Failed).
Proof.
  intros Hk <- Hnf%HasFailed_false. unfold run_attempt, verdict.
  destruct (passes a).
  - rewrite SetPass_eq, Hk, Hnf. cbn. by rewrite lookup_insert_eq.
  - rewrite SetFail_eq, Hk, Hnf. cbn.
    destruct (CanFail v); cbn; by rewrite lookup_insert_eq.
Qed.

Lemma wave_without_fatal todo d k s v :
  Vertices d !! k = Some (with_Vertex_Status s v) →
  Dag_Status d ≠ Failed →
  (∀ a, a ∈ todo → target a = k ∧ (passes a = true ∨ CanFail v = true)) →
  Dag_Status (run_wave todo d) = Dag_Status d ∧
  Vertices (run_wave todo d) !! k =
    Some (with_Vertex_Status (default s (verdict <$> last todo)) v).
Proof.
  revert d s. induction todo as [|a todo IH]; intros d s Hk Hnf Hall; [done|].
  destruct (Hall a) as [Ht Hp]; [left|].
  destruct (attempt_on_vertex a d k s v Hk Ht Hnf) as [Hk1 Hs1].
  assert (Dag_Status (run_attempt a d).2 = Dag_Status d) as Hs1'.
  { rewrite Hs1. destruct Hp as [-> | ->]; [done|by destruct (passes a)]. }
  destruct (IH (run_attempt a d).2 (verdict a)) as [Hs2 Hk2]; [done|congruence| |].
  { intros a' Ha'. apply Hall. by right. }
  change (run_wave (a :: todo) d) with (run_wave todo (run_attempt a d).2).
  split; [congruence|]. rewrite Hk2, (last_cons a todo).
  by destruct (last todo).
Qed.

Lemma wave_with_fatal todo d k s v :
  Vertices d !! k = Some (with_Vertex_Status s v) →
  Dag_Status d ≠ Failed → CanFail v = false →
  (∀ a, a ∈ todo → target a = k) →
  forallb passes todo = false →
  Dag_Status (run_wave todo d) = Failed ∧
  Vertices (run_wave todo d) !! k = Some (with_Vertex_Status Failed v).
Proof.
  revert d s. induction todo as [|a todo IH]; intros d s Hk Hnf Hcf Hall Hsome;
    [done|].
  destruct (attempt_on_vertex a d k s v Hk (Hall a ltac:(left)) Hnf) as [Hk1 Hs1].
  cbn in Hsome.
  change (run_wave (a :: todo) d) with (run_wave todo (run_attempt a d).2).
  unfold verdict in Hk1. rewrite Hcf in Hs1.
  destruct (passes a); cbn in Hsome.
  - apply (IH _ Passed); try done; [congruence|].
    intros a' Ha'. apply Hall. by right.
  - by rewrite run_wave_failed.
Qed.

(** Several attempts on one registered vertex, taking the lock in the order
    of [todo], on a graph that has not failed.  They are steps of the loop.
    If the vertex may fail, the graph status stays and the vertex ends with
    the status written by the last attempt, Passed if it passes and Failed
    if it fails.  If it must not fail, one failing attempt anywhere in the
    list makes the vertex and the graph Failed, wherever the passes come;
    without one the vertex ends Passed and the graph status stays.  The id,
    the repetition count and the failure policy of the vertex stay. *)
Theorem attempts_on_one_vertex d k v todo :
  Vertices d !! k = Some v → Dag_Status d ≠ Failed →
  (∀ a, a ∈ todo → target a = k) →
  rtc step (InWave d todo) (InWave (run_wave todo d) []) ∧
  (CanFail v = true →
     Dag_Status (run_wave todo d) = Dag_Status d ∧
     ∀ a, last todo = Some a →
          Vertices (run_wave todo d) !! k =
          Some (mkVertex (ID v) (if passes a then Passed else Failed)
                         (Loop v) (CanFail v))) ∧
  (CanFail v = false → forallb passes todo = false →
     Dag_Status (run_wave todo d) = Failed ∧
     Vertices (run_wave todo d) !! k =
       Some (mkVertex (ID v) Failed (Loop v) (CanFail v))) ∧
  (CanFail v = false → forallb passes todo = true →
     Dag_Status (run_wave todo d) = Dag_Status d ∧
     ∀ a, last todo = Some a →
          Vertices (run_wave todo d) !! k =
          Some (mkVertex (ID v) Passed (Loop v) (CanFail v))).
Proof.
  intros Hk Hnf Hall.
  assert (Vertices d !! k = Some (with_Vertex_Status (Vertex_Status v) v)) as Hk'
    by by destruct v.
  split; [|split; [|split]].
  - apply wave_steps. intros a Ha. rewrite (Hall a Ha). by eexists.
  - intros Hcf.
    destruct (wave_without_fatal todo d k (Vertex_Status v) v) as [Hs Hv]; try done.
    { intros a Ha. split; [by apply Hall|by right]. }
    split; [done|]. intros a Hlast. by rewrite Hv, Hlast.
  - intros Hcf Hsome. by apply (wave_with_fatal todo d k (Vertex_Status v) v).
  - intros Hcf Hpass.
    destruct (wave_without_fatal todo d k (Vertex_Status v) v) as [Hs Hv]; try done.
    { intros a Ha. split; [by apply Hall|left].
      rewrite forallb_forall in Hpass. apply Hpass. by apply list_elem_of_In. }
    split; [done|]. intros a Hlast. rewrite Hv, Hlast. cbn. unfold verdict.
    rewrite forallb_forall in Hpass. rewrite Hpass; [done|].
    apply list_elem_of_In. by apply last_Some_elem_of.
Qed.

Lemma attempts_on_one_vertex_witness :
  Vertices (run_wave [mkAttempt "C" false; mkAttempt "C" true] main_dag) !! "C" =
    Some (mkVertex "C" Passed 11 true) ∧
  Vertices (run_wave [mkAttempt "C" true; mkAttempt "C" false] main_dag) !! "C" =
    Some (mkVertex "C" Failed 11 true) ∧
  Dag_Status (run_wave [mkAttempt "B" false; mkAttempt "B" true] main_dag) = Failed ∧
  Vertices (run_wave [mkAttempt "B" false; mkAttempt "B" true] main_dag) !! "B" =
    Some (mkVertex "B" Failed 1 false).
Proof.
  split; [|split].
  - destruct (attempts_on_one_vertex main_dag "C" vertexC
                [mkAttempt "C" false; mkAttempt "C" true]) as (_ & H & _);
      [by vm_compute|by vm_compute| |].
    + intros a [->|[->|[]%elem_of_nil]%elem_of_cons]%elem_of_cons; done.
    + destruct H as [_ H]; [done|]. exact (H (mkAttempt "C" true) eq_refl).
  - destruct (attempts_on_one_vertex main_dag "C" vertexC
                [mkAttempt "C" true; mkAttempt "C" false]) as (_ & H & _);
      [by vm_compute|by vm_compute| |].
    + intros a [->|[->|[]%elem_of_nil]%elem_of_cons]%elem_of_cons; done.
    + destruct H as [_ H]; [done|]. exact (H (mkAttempt "C" false) eq_refl).
  - destruct (attempts_on_one_vertex main_dag "B" vertexB
                [mkAttempt "B" false; mkAttempt "B" true]) as (_ & _ & H & _);
      [by vm_compute|by vm_compute| |].
    + intros a [->|[->|[]%elem_of_nil]%elem_of_cons]%elem_of_cons; done.
    + by apply H.
Defined.

(** ** The readiness computation *)




(** ** Degenerate runs *)

(** [ExecuteVertices] on a graph whose status is already Passed or Failed
    returns at once and touches nothing: [Next] is not called, so a graph
    that had not started is still open to [AddVertex] and [AddEdge]. *)
Theorem finished_graph_returns_at_once d :
  HasFinished d = true →
  step (AtLoop d) (Returned d) ∧
  (∀ c, rtc step (AtLoop d) c → c = AtLoop d ∨ c = Returned d) ∧
  (IsStarted d = false → ∀ c v, rtc step (AtLoop d) c →
     AddVertex v (dag_of c) = (Ok tt, store (ID v) v d)).
Proof.
  intros Hf.
  assert (∀ c, rtc step (AtLoop d) c → c = AtLoop d ∨ c = Returned d) as Hreach.
  { apply (rtc_ind_r _ (AtLoop d)); [by left|].
    intros c1 c2 _ Hstep [-> | ->].
    - right. inversion Hstep; subst; congruence.
    - inversion Hstep. }
  split; [by apply step_return|]. split; [done|].
  intros Hs c v Hc. rewrite AddVertex_eq.
  by destruct (Hreach c Hc) as [-> | ->]; cbn; rewrite Hs.
Qed.

Lemma finished_graph_returns_at_once_witness :
  step (AtLoop (with_Dag_Status Passed main_dag))
       (Returned (with_Dag_Status Passed main_dag)) ∧
  ∀ c, rtc step (AtLoop (with_Dag_Status Passed main_dag)) c →
       c = AtLoop (with_Dag_Status Passed main_dag) ∨
       c = Returned (with_Dag_Status Passed main_dag).
Proof.
  destruct (finished_graph_returns_at_once (with_Dag_Status Passed main_dag))
    as (H1 & H2 & _); [by vm_compute|]. by split.
Defined.


(** ** A vertex that depends on itself *)

(** A vertex that is listed among its own parents is never ready: on a
    graph whose vertices are registered under their ids, no graph that a
    run reaches has it in its ready set. *)
Theorem self_parent_never_ready d k :
  keys_ok d → k ∈ parents d k →
  ∀ c v, rtc step (AtLoop d) c → ID v = k → v ∉ ready (dag_of c).
Proof.
  intros Hok Hself c v Hc Hid Hv.
  pose proof (evolves_steps _ _ Hc) as Hev. cbn in Hev.
  pose proof (evolves_keys_ok _ _ Hev Hok) as Hok'.
  destruct (ready_pending _ v Hok' Hv) as [Hk Hs].
  apply elem_of_ready in Hv as [Hce _].
  apply CanExecute_true in Hce as [_ Hall].
  destruct (Hall k) as (pv & Hpv & Hne).
  - unfold parents. rewrite (ev_parents _ _ Hev), Hid. exact Hself.
  - rewrite Hid in Hk. congruence.
Qed.

Lemma self_parent_never_ready_witness :
  "A" ∈ parents self_loop_dag "A" ∧
  ∀ c v, rtc step (AtLoop self_loop_dag) c → ID v = "A" → v ∉ ready (dag_of c).
Proof.
  split; [vm_compute; left|].
  apply (self_parent_never_ready self_loop_dag "A").
  - unfold keys_ok. table_check; done.
  - vm_compute. left.
Defined.


(** ** What a run never does *)

(** Along a run of [ExecuteVertices] the adjacency tables never change, no
    id is registered or dropped, a vertex keeps its id, its repetition
    count and its failure policy, a vertex that has left Pending never
    returns to it, and a started graph stays started. *)
Theorem run_preserves d c :
  rtc step (AtLoop d) c →
  ConnectionsParents (dag_of c) = ConnectionsParents d ∧
  ConnectionsChildren (dag_of c) = ConnectionsChildren d ∧
  (IsStarted d = true → IsStarted (dag_of c) = true) ∧
  (∀ k, Vertices d !! k = None ↔ Vertices (dag_of c) !! k = None) ∧
  (∀ k v v', Vertices d !! k = Some v → Vertices (dag_of c) !! k = Some v' →
     ID v' = ID v ∧ Loop v' = Loop v ∧ CanFail v' = CanFail v ∧
     (Vertex_Status v ≠ Pending → Vertex_Status v' ≠ Pending)).
Proof.
  intros Hc. pose proof (evolves_steps _ _ Hc) as [Hp Hch Hs Hv]. cbn in *.
  do 3 (split; [done|]). split.
  - intros k. specialize (Hv k). split; intros Hk; rewrite Hk in Hv; by inversion Hv.
  - intros k v v' Hk Hk'. specialize (Hv k). rewrite Hk, Hk' in Hv.
    by inversion Hv.
Qed.

Lemma run_preserves_witness :
  ConnectionsParents single_failed = ConnectionsParents single_dag ∧
  ConnectionsChildren single_failed = ConnectionsChildren single_dag ∧
  (∀ k, Vertices single_dag !! k = None ↔ Vertices single_failed !! k = None).
Proof.
  destruct (run_preserves single_dag (InWave single_failed []))
    as (H1 & H2 & _ & H3 & _); [|done].
  eapply rtc_l; [|apply rtc_once].
  - apply (step_dispatch single_dag [vertexB] (with_IsStarted true single_dag)
             [mkAttempt "B" false]);
      [by vm_compute|by vm_compute|by repeat constructor|].
    split; [done|]. intros a ->%list_elem_of_singleton. left.
  - apply step_attempt. by vm_compute.
Defined.

Lemma run_attempt_panic_msg a d msg d1 :
  run_attempt a d = (Panic msg, d1) →
  msg = nil_dereference ∧ Vertices d !! target a = None.
Proof.
  unfold run_attempt. destruct (passes a).
  - rewrite SetPass_eq. destruct (Vertices d !! target a); [done|]. by intros [= <- _].
  - rewrite SetFail_eq. destruct (Vertices d !! target a); [done|]. by intros [= <- _].
Qed.


Lemma safe_step c c' :
  keys_ok (dag_of c) → loops_nonneg (dag_of c) → loops_fit (dag_of c) →
  safe c → step c c' → safe c'.
Proof.
  intros Hok Hpos Hfit Hsafe.
  destruct 1 as [d Hf|d msg d1 Hu HN|d vs d1 todo Hu HN Hnn Hsch|d vs d1 Hu HN Hneg
                 |d a todo d1 Ha|d a todo msg d1 Ha|d]; cbn in *; try done.
  - apply Next_Panic in HN. apply HasFinished_false in Hu. congruence.
  - apply Next_Ok in HN as (_ & Hvs & ->). intros a Ha.
    destruct (ready_registered d a vs) as (w & Hw & _); [done..|by apply Hsch|].
    destruct vs; cbn; by eexists.
  - apply Next_Ok in HN as (_ & -> & ->).
    destruct Hneg. by apply wave_fits_ready.
  - intros a' Ha'. apply (evolves_registered d d1).
    + replace d1 with (run_attempt a d).2 by (by rewrite Ha).
      apply evolves_run_attempt.
    + apply Hsafe. by right.
  - apply run_attempt_panic_msg in Ha as [_ Hnone].
    destruct (Hsafe a) as [v Hv]; [left|]. congruence.
Qed.

Lemma safe_steps d c :
  keys_ok d → loops_nonneg d → loops_fit d → rtc step (AtLoop d) c → safe c.
Proof.
  intros Hok Hpos Hfit. revert c. apply (rtc_ind_r _ (AtLoop d)); [done|].
  intros c1 c2 H1 Hstep Hsafe.
  pose proof (evolves_steps _ _ H1) as Hev. cbn in Hev.
  apply (safe_step c1 c2); try done.
  - by apply (evolves_keys_ok d).
  - by apply (evolves_loops_nonneg d).
  - by apply (evolves_loops_fit d).
Qed.



Lemma safe_progress c :
  keys_ok (dag_of c) → loops_nonneg (dag_of c) → loops_fit (dag_of c) →
  safe c →
  (∃ d, c = Returned d ∧ HasFinished d = true) ∨ red step c.
Proof.
  intros Hok Hpos Hfit Hsafe. destruct c as [d|d todo|d|msg d]; cbn in *.
  - right. destruct (HasFinished d) eqn:Hf.
    + exists (Returned d). by apply step_return.
    + assert (HasFailed d = false) as Hnf.
      { apply HasFailed_false. apply HasFinished_false in Hf. congruence. }
      exists (InWave (declare_success (ready d) (with_IsStarted true d))
                     (all_pass (ready d))).
      apply step_dispatch; [done|by rewrite Next_eq, Hnf| |apply schedule_all_pass].
      by apply wave_fits_ready.
  - right. destruct todo as [|a todo].
    + exists (AtLoop d). apply step_barrier.
    + destruct (Hsafe a) as [v Hv]; [left|].
      pose proof (run_attempt_Ok a d v Hv) as Hr.
      destruct (run_attempt a d) as [r d1] eqn:Ha. cbn in Hr. subst r.
      exists (InWave d1 todo). by apply step_attempt.
  - left. by exists d.
  - done.
Qed.

(** When every vertex is registered under its id and has at least one
    repetition, and the repetition counts together stay below 2^31, the
    range of the counter of the wait group, every run of [ExecuteVertices]
    is finite, whatever the attempts report and in whatever order; a run
    can only stop by returning, on a graph for which [HasFinished] holds and
    exactly one of [HasFailed] and [HasSucceeded]; and a run to a return
    exists. *)
Theorem run_always_returns d :
  keys_ok d → loops_positive d → loops_fit d →
  sn step (AtLoop d) ∧
  (∀ c, rtc step (AtLoop d) c → nf step c →
        ∃ d', c = Returned d' ∧ HasFinished d' = true ∧
              HasFailed d' = negb (HasSucceeded d')) ∧
  (∃ d', rtc step (AtLoop d) (Returned d')).
Proof.
  intros Hok Hpos Hfit. pose proof (loops_positive_nonneg d Hpos) as Hnn.
  pose proof (ExecuteVertices_terminates d Hok Hpos) as Hsn.
  assert (∀ c, rtc step (AtLoop d) c →
            (∃ d', c = Returned d' ∧ HasFinished d' = true) ∨ red step c)
    as Hprog.
  { intros c Hc. pose proof (evolves_steps _ _ Hc) as Hev. cbn in Hev.
    apply safe_progress.
    - by apply (evolves_keys_ok d).
    - by apply (evolves_loops_nonneg d).
    - by apply (evolves_loops_fit d).
    - by apply (safe_steps d). }
  split; [done|split].
  - intros c Hc Hnf. destruct (Hprog c Hc) as [(d' & -> & Hf)|Hred]; [|done].
    exists d'. split; [done|]. split; [done|].
    unfold HasFinished, HasFailed, HasSucceeded in *.
    by destruct (Dag_Status d').
  - assert (∀ c, sn step c → rtc step (AtLoop d) c →
              ∃ d', rtc step (AtLoop d) (Returned d')) as Hret.
    { induction 1 as [c _ IH]. intros Hc.
      destruct (Hprog c Hc) as [(d' & -> & _)|[c' Hstep]]; [by exists d'|].
      apply (IH c' Hstep). by eapply rtc_r. }
    by apply (Hret (AtLoop d)).
Qed.

Lemma run_always_returns_witness :
  sn step (AtLoop main_dag) ∧
  (∀ c, rtc step (AtLoop main_dag) c → nf step c →
        ∃ d', c = Returned d' ∧ HasFinished d' = true ∧
              HasFailed d' = negb (HasSucceeded d')) ∧
  (∃ d', rtc step (AtLoop main_dag) (Returned d')).
Proof.
  apply (run_always_returns main_dag).
  - unfold keys_ok. table_check; done.
  - unfold loops_positive. table_check; vm_compute; congruence.
  - by vm_compute.
Defined.

(** ** What the final status says *)

Lemma attempt_culprit a d :
  Dag_Status d ≠ Failed → Dag_Status (run_attempt a d).2 = Failed →
  culprit (run_attempt a d).2.
Proof.
  intros Hnf%HasFailed_false. unfold run_attempt. destruct (passes a).
  - rewrite SetPass_eq. destruct (Vertices d !! target a); cbn;
      rewrite ?Hnf; cbn; intros Hf%HasFailed_true; congruence.
  - rewrite SetFail_eq. destruct (Vertices d !! target a) as [v|]; cbn;
      [|intros Hf%HasFailed_true; congruence].
    rewrite Hnf. destruct (CanFail v) eqn:Hcf; cbn;
      [intros Hf%HasFailed_true; congruence|].
    intros _. exists (target a), (with_Vertex_Status Failed v).
    split; [apply lookup_insert_eq|done].
Qed.

Lemma outcome_step c c' :
  settled c → outcome_inv c → step c c' → outcome_inv c'.
Proof.
  intros Hset [Hpass Hfail].
  destruct 1 as [d Hf|d msg d1 Hu HN|d vs d1 todo Hu HN Hnn Hsch|d vs d1 Hu HN Hneg
                 |d a todo d1 Ha|d a todo msg d1 Ha|d]; cbn in *; try by split.
  - apply Next_Panic in HN. apply HasFinished_false in Hu. congruence.
  - apply HasFinished_false in Hu. apply Next_Ok in HN as (_ & -> & ->).
    destruct (ready d) eqn:Hr; split; cbn; try congruence.
    intros _. by rewrite <- (ready_ext d).
  - apply HasFinished_false in Hu. apply Next_Ok in HN as (_ & -> & ->).
    destruct (ready d).
    { destruct Hneg. split; [constructor|by vm_compute]. }
    split; cbn; congruence.
  - assert (Dag_Status d ≠ Passed) as Hnp by (intros Hp; by apply Hset in Hp).
    replace d1 with (run_attempt a d).2 by (by rewrite Ha).
    destruct (decide (Dag_Status d = Failed)) as [Hf|Hnf].
    + replace (run_attempt a d).2 with d; [by split|].
      unfold run_attempt. destruct (passes a);
        [by rewrite failed_SetPass|by rewrite failed_SetFail].
    + split; cbn; [|by apply attempt_culprit].
      intros Hp. destruct (run_attempt_status a d) as [Hs|[_ Hs]]; congruence.
  - assert (Dag_Status d ≠ Passed) as Hnp by (intros Hp; by apply Hset in Hp).
    replace d1 with (run_attempt a d).2 by (by rewrite Ha).
    destruct (decide (Dag_Status d = Failed)) as [Hf|Hnf].
    + replace (run_attempt a d).2 with d; [by split|].
      unfold run_attempt. destruct (passes a);
        [by rewrite failed_SetPass|by rewrite failed_SetFail].
    + split; cbn; [|by apply attempt_culprit].
      intros Hp. destruct (run_attempt_status a d) as [Hs|[_ Hs]]; congruence.
Qed.

(** Take a run of [ExecuteVertices] from a graph whose status is Pending.
    Whenever the graph status is Passed, no vertex is ready; whenever it is
    Failed, some registered vertex that must not fail has the status
    Failed. *)
Theorem run_outcome d c :
  Dag_Status d = Pending → rtc step (AtLoop d) c →
  (Dag_Status (dag_of c) = Passed → ready (dag_of c) = []) ∧
  (Dag_Status (dag_of c) = Failed →
     ∃ k v, Vertices (dag_of c) !! k = Some v ∧ CanFail v = false ∧
            Vertex_Status v = Failed).
Proof.
  intros Hs. revert c.
  apply (rtc_ind_r (λ c, outcome_inv c) (AtLoop d)).
  - split; cbn; congruence.
  - intros c1 c2 H1 Hstep Hinv. apply (outcome_step c1 c2); [|done..].
    by apply (settled_steps (AtLoop d)).
Qed.

Lemma run_outcome_witness :
  Dag_Status single_failed = Failed ∧
  ∃ k v, Vertices single_failed !! k = Some v ∧ CanFail v = false ∧
         Vertex_Status v = Failed.
Proof.
  split; [by vm_compute|].
  apply (run_outcome single_dag (Returned single_failed)); [done| |by vm_compute].
  eapply rtc_l; [|eapply rtc_l; [|eapply rtc_l; [|apply rtc_once]]].
  - apply (step_dispatch single_dag [vertexB] (with_IsStarted true single_dag)
             [mkAttempt "B" false]);
      [by vm_compute|by vm_compute|by repeat constructor|].
    split; [done|]. intros a ->%list_elem_of_singleton. left.
  - apply step_attempt. by vm_compute.
  - apply step_barrier.
  - apply step_return. by vm_compute.
Defined.
